(** * Annealed Langevin sampler and attention-layer constructor

    A shallow embedding of [score/annealed_langevin.py] and of
    [AttLayer.__init__] from [ddpm/models/layers.py], with the properties
    the specification states about them.

    Layout of the file:
    - scalar arithmetic as an interface ([Scalar]), instantiated at IEEE
      binary64 (torch.float64) and at the real numbers;
    - rank-4 tensors with torch's broadcasting rule;
    - a state-and-exception monad carrying the position of the random
      stream and a log of the observable actions;
    - the sampler, written loop for loop as in the source;
    - the sampler as the specification describes it, one flat run over
      the schedule;
    - an object-store version of the sampler, for aliasing questions;
    - the attention-layer constructor;
    - the theorems. *)

From Stdlib Require Import List ZArith Lia Bool Arith PeanoNat.
From Stdlib Require Import Floats.
From Stdlib Require Import Reals Lra.
Import ListNotations.

Set Implicit Arguments.

(** ** Exceptions *)

(** The exceptions that can be raised on the paths modelled here: an index
    out of range; torch's [RuntimeError], raised for operand shapes that
    cannot be broadcast together and for a negative dimension; and
    Python's [ZeroDivisionError]. *)
Inductive exn : Type :=
| IndexError
| RuntimeError
| ZeroDivisionError.

Inductive result (A : Type) : Type :=
| Ok (a : A)
| Raise (e : exn).

Arguments Ok {A} a.
Arguments Raise {A} e.

Definition result_bind {A B} (r : result A) (k : A -> result B) : result B :=
  match r with
  | Ok a => k a
  | Raise e => Raise e
  end.

(** ** Scalars *)

(** What the sampler needs of a tensor's element type.  [s_ltb] is the
    element comparison [<]; on floating point it is false as soon as one
    side is NaN. *)
Class Scalar (F : Type) : Type := {
  s_zero : F;
  s_one : F;
  s_neg_one : F;
  s_two : F;
  s_add : F -> F -> F;
  s_mul : F -> F -> F;
  s_div : F -> F -> F;
  s_sqrt : F -> F;
  s_ltb : F -> F -> bool
}.

(** torch.float64: IEEE 754 binary64, round to nearest even. *)
#[export] Instance float64 : Scalar float := {
  s_zero := 0%float;
  s_one := 1%float;
  s_neg_one := (-1)%float;
  s_two := 2%float;
  s_add := PrimFloat.add;
  s_mul := PrimFloat.mul;
  s_div := PrimFloat.div;
  s_sqrt := PrimFloat.sqrt;
  s_ltb := PrimFloat.ltb
}.

Definition Rltb (a b : R) : bool := if Rlt_dec a b then true else false.

(** Exact arithmetic, the idealisation in which the algebraic laws of the
    step size are stated. *)
#[export] Instance exact_reals : Scalar R := {
  s_zero := 0%R;
  s_one := 1%R;
  s_neg_one := (-1)%R;
  s_two := 2%R;
  s_add := Rplus;
  s_mul := Rmult;
  s_div := Rdiv;
  s_sqrt := sqrt;
  s_ltb := Rltb
}.

Section Tensors.

Context {F : Type} {SF : Scalar F}.

(** [v ** 2]: torch's pow kernel computes an exponent of 2 as [v * v]. *)
Definition sq (v : F) : F := s_mul v v.

(** torch.clamp on one element: [min(max(v, lo), hi)].  Both comparisons
    are false on a NaN, which is therefore returned unchanged. *)
Definition clamp_scalar (lo hi v : F) : F :=
  if s_ltb v lo then lo else if s_ltb hi v then hi else v.

(** ** Tensors of rank 4: [n_samples x C x W x H], row major *)

Record shape4 : Type := Shape { dim0 : nat; dim1 : nat; dim2 : nat; dim3 : nat }.

Definition numel (s : shape4) : nat := dim0 s * dim1 s * dim2 s * dim3 s.

Record tensor : Type := Tensor { shape : shape4; data : list F }.

Definition well_formed (t : tensor) : Prop := length (data t) = numel (shape t).

(** [x.size(dim=0)] *)
Definition size0 (t : tensor) : nat := dim0 (shape t).

Definition tmap (f : F -> F) (t : tensor) : tensor :=
  Tensor (shape t) (map f (data t)).

(** [torch.clamp(x, lo, hi)]: a new tensor. *)
Definition clamp (t : tensor) (lo hi : F) : tensor := tmap (clamp_scalar lo hi) t.

(** A zero-dimensional tensor (or Python number) times a tensor. *)
Definition scalar_mul (c : F) (t : tensor) : tensor := tmap (fun v => s_mul c v) t.

(** A tensor times a zero-dimensional tensor. *)
Definition mul_scalar (t : tensor) (c : F) : tensor := tmap (fun v => s_mul v c) t.

(** [t.view(-1, 1, 1, 1)] of a one-dimensional tensor. *)
Definition view_col (l : list F) : tensor := Tensor (Shape (length l) 1 1 1) l.

(** *** Broadcasting *)

(** Two sizes are compatible when they are equal or one of them is 1. *)
Definition broadcast_dim (a b : nat) : result nat :=
  if a =? b then Ok a
  else if a =? 1 then Ok b
  else if b =? 1 then Ok a
  else Raise RuntimeError.

Definition broadcast_shape (s1 s2 : shape4) : result shape4 :=
  result_bind (broadcast_dim (dim0 s1) (dim0 s2)) (fun d0 =>
  result_bind (broadcast_dim (dim1 s1) (dim1 s2)) (fun d1 =>
  result_bind (broadcast_dim (dim2 s1) (dim2 s2)) (fun d2 =>
  result_bind (broadcast_dim (dim3 s1) (dim3 s2)) (fun d3 =>
  Ok (Shape d0 d1 d2 d3))))).

(** The multi-index of flat position [k] in a tensor of shape [s]. *)
Definition unravel (s : shape4) (k : nat) : nat * nat * nat * nat :=
  (k / (dim1 s * dim2 s * dim3 s),
   (k / (dim2 s * dim3 s)) mod dim1 s,
   (k / dim3 s) mod dim2 s,
   k mod dim3 s).

(** A dimension of size 1 is read at index 0 whatever the index asked. *)
Definition stretch (d i : nat) : nat := if d =? 1 then 0 else i.

Definition ravel (s : shape4) (i : nat * nat * nat * nat) : nat :=
  let '(i0, i1, i2, i3) := i in
  ((stretch (dim0 s) i0 * dim1 s + stretch (dim1 s) i1) * dim2 s
   + stretch (dim2 s) i2) * dim3 s + stretch (dim3 s) i3.

Definition expand_get (t : tensor) (i : nat * nat * nat * nat) : F :=
  nth (ravel (shape t) i) (data t) s_zero.

(** The sum of two tensors of one shape, position by position. *)
Definition pointwise_add (a b : tensor) : tensor :=
  Tensor (shape a)
    (map (fun k => s_add (nth k (data a) s_zero) (nth k (data b) s_zero))
         (seq 0 (numel (shape a)))).

(** [a + b] on tensors, with broadcasting. *)
Definition tensor_add (a b : tensor) : result tensor :=
  result_bind (broadcast_shape (shape a) (shape b)) (fun s =>
  Ok (Tensor s (map (fun k => s_add (expand_get a (unravel s k))
                                    (expand_get b (unravel s k)))
                    (seq 0 (numel s))))).

End Tensors.

Arguments tensor F : clear implicits.

(** ** A state-and-exception monad *)

Section Monad.

Variable W : Type.

(** A computation reads and updates a state [W] and either returns a
    value or raises. *)
Definition M (A : Type) : Type := W -> result (A * W).

Definition ret {A} (a : A) : M A := fun w => Ok (a, w).

Definition bind {A B} (m : M A) (k : A -> M B) : M B :=
  fun w => match m w with
           | Ok (a, w') => k a w'
           | Raise e => Raise e
           end.

Definition lift {A} (r : result A) : M A :=
  fun w => match r with
           | Ok a => Ok (a, w)
           | Raise e => Raise e
           end.

(** [for a in l: s = body(a, s)] *)
Fixpoint for_in {A S} (l : list A) (body : A -> S -> M S) (s : S) : M S :=
  match l with
  | [] => ret s
  | a :: l' => bind (body a s) (fun s' => for_in l' body s')
  end.

End Monad.

Arguments ret {W A} a.
Arguments bind {W A B} m k.
Arguments lift {W A} r.
Arguments for_in {W A S} l body s.

Notation "x <- m ;; k" := (bind m (fun x => k))
  (at level 61, m at next level, right associativity).

Definition range (n : nat) : list nat := seq 0 n.

Definition enumerate {A} (l : list A) : list (nat * A) :=
  combine (seq 0 (length l)) l.

(** What a call returns to its caller. *)
Definition returned {W A} (r : result (A * W)) : result A :=
  match r with
  | Ok (a, _) => Ok a
  | Raise e => Raise e
  end.

(** ** Effects: the random stream, the calls to the score network, the log *)

Section Sampler.

Context {F : Type} {SF : Scalar F}.

(** The actions of the sampler that can be observed from outside, in the
    order in which they happen. *)
Inductive event : Type :=
| EvGather (labels : list nat)          (* sigmas[labels] *)
| EvLast                                (* sigmas[-1] *)
| EvAppend (snapshot : tensor F)        (* samples.append(snapshot) *)
| EvRandn (s : shape4)                  (* torch.randn_like(x) *)
| EvScore (x used_sigmas : tensor F).   (* score_nn(x, used_sigmas) *)

(** The generator has handed out [rng_pos] standard-normal values so far. *)
Record world : Type := World { rng_pos : nat; log : list event }.

Definition emit (e : event) : M world unit :=
  fun w => Ok (tt, World (rng_pos w) (log w ++ [e])).

(** The values the generator produces, in the order it produces them. *)
Variable draws : nat -> F.

(** The score network, a function of the sample and of the noise levels. *)
Variable score_nn : tensor F -> tensor F -> tensor F.

(** [torch.randn_like(x)]: as many fresh values as [x] has elements. *)
Definition randn_like (x : tensor F) : M world (tensor F) :=
  fun w =>
    let n := numel (shape x) in
    Ok (Tensor (shape x) (map draws (seq (rng_pos w) n)),
        World (rng_pos w + n) (log w ++ [EvRandn (shape x)])).

Definition call_score (x used_sigmas : tensor F) : M world (tensor F) :=
  _ <- emit (EvScore x used_sigmas) ;; ret (score_nn x used_sigmas).

(** [samples.append(t)] *)
Definition append (samples : list (tensor F)) (t : tensor F) : M world (list (tensor F)) :=
  _ <- emit (EvAppend t) ;; ret (samples ++ [t]).

Fixpoint take_all (sigmas : list F) (labels : list nat) : result (list F) :=
  match labels with
  | [] => Ok []
  | i :: labels' =>
      match nth_error sigmas i with
      | Some s => result_bind (take_all sigmas labels') (fun r => Ok (s :: r))
      | None => Raise IndexError
      end
  end.

(** [sigmas[labels]] with a tensor of indices. *)
Definition gather (sigmas : list F) (labels : list nat) : M world (list F) :=
  _ <- emit (EvGather labels) ;; lift (take_all sigmas labels).

(** [sigmas[-1]] *)
Definition index_last (sigmas : list F) : M world F :=
  _ <- emit EvLast ;;
  match sigmas with
  | [] => lift (Raise IndexError)
  | s :: rest => ret (last rest s)
  end.

(** [.to('cpu')] moves the storage and leaves shape and values as they are. *)
Definition to_cpu (t : tensor F) : tensor F := t.

(** ** The sampler *)

(** [eps * (sigma / sigmas[-1]) ** 2] *)
Definition step_size (eps sigma last_sigma : F) : F :=
  s_mul eps (sq (s_div sigma last_sigma)).

(** [x + step_size * score + z] *)
Definition langevin_update (x : tensor F) (step : F) (score z : tensor F)
  : result (tensor F) :=
  result_bind (tensor_add x (scalar_mul step score)) (fun a => tensor_add a z).

(** The body of [for t in range(T)]. *)
Definition inner_body (used_sigmas : tensor F) (step : F) (t : nat)
  (st : tensor F * list (tensor F)) : M world (tensor F * list (tensor F)) :=
  let '(x, samples) := st in
  samples' <- append samples (to_cpu (clamp x s_neg_one s_one)) ;;
  r <- randn_like x ;;
  let z := mul_scalar r (s_sqrt (s_mul s_two step)) in
  score <- call_score x used_sigmas ;;
  x' <- lift (langevin_update x step score z) ;;
  ret (x', samples').

(** The body of [for label, sigma in enumerate(sigmas)].  The labels are
    [torch.ones(n) * label] converted to integers: [n] copies of [label]
    (the product is computed in float32, exactly for every label below
    2^24). *)
Definition outer_body (sigmas : list F) (eps : F) (T : nat) (ls : nat * F)
  (st : tensor F * list (tensor F)) : M world (tensor F * list (tensor F)) :=
  let '(label, sigma) := ls in
  let labels := repeat label (size0 (fst st)) in
  g <- gather sigmas labels ;;
  let used_sigmas := view_col g in
  l <- index_last sigmas ;;
  let step := step_size eps sigma l in
  for_in (range T) (inner_body used_sigmas step) st.

(** The two nested loops; the final value of the local [x] is kept next to
    the list of samples. *)
Definition anneal_loop (x : tensor F) (sigmas : list F) (eps : F) (T : nat)
  : M world (tensor F * list (tensor F)) :=
  for_in (enumerate sigmas) (outer_body sigmas eps T) (x, []).

Definition sample_anneal_langevin (x : tensor F) (sigmas : list F) (eps : F)
  (T : nat) : M world (list (tensor F)) :=
  st <- anneal_loop x sigmas eps T ;; ret (snd st).

(** A call starts with an untouched generator and an empty log. *)
Definition start : world := World 0 [].

End Sampler.

(** ** The sampler as the specification describes it *)

Section Specification.

Context {F : Type} {SF : Scalar F}.

Variable draws : nat -> F.
Variable score_nn : tensor F -> tensor F -> tensor F.

(** The scalar noise level broadcast to one value per batch element. *)
Definition sigma_broadcast (sigma : F) (x : tensor F) : tensor F :=
  view_col (repeat sigma (size0 x)).

(** [a + c * s + z], element by element. *)
Fixpoint axpy (c : F) (a s z : list F) : list F :=
  match a, s, z with
  | av :: a', sv :: s', zv :: z' =>
      s_add (s_add av (s_mul c sv)) zv :: axpy c a' s' z'
  | _, _, _ => []
  end.

(** Where a run stands: the sample, the number of random values consumed,
    the snapshots recorded and the actions taken so far. *)
Record progress : Type := Progress {
  cur_x : tensor F;
  cur_pos : nat;
  snapshots : list (tensor F);
  actions : list (@event F)
}.

(** Fresh noise of the shape of [x], scaled by [sqrt(2 * step)]. *)
Definition scaled_noise (pos : nat) (x : tensor F) (step : F) : tensor F :=
  Tensor (shape x)
    (map (fun k => s_mul (draws k) (s_sqrt (s_mul s_two step)))
         (seq pos (numel (shape x)))).

(** The recorded form of a sample: every element clamped to [-1, 1]. *)
Definition clamp_unit (x : tensor F) : tensor F := clamp x s_neg_one s_one.

(** The sample after one update at noise level [sigma]:
    [x + step * score + z], position by position. *)
Definition spec_update (eps last_sigma sigma : F) (x : tensor F) (pos : nat)
  : tensor F :=
  let step := s_mul eps (sq (s_div sigma last_sigma)) in
  let z := scaled_noise pos x step in
  let score := score_nn x (sigma_broadcast sigma x) in
  pointwise_add (pointwise_add x (scalar_mul step score)) z.

(** One inner iteration at noise level [sigma]: record the snapshot, draw
    the noise, evaluate the score, update the sample. *)
Definition spec_iteration (eps last_sigma : F) (st : progress) (sigma : F)
  : progress :=
  let x := cur_x st in
  Progress
    (spec_update eps last_sigma sigma x (cur_pos st))
    (cur_pos st + numel (shape x))
    (snapshots st ++ [clamp_unit x])
    (actions st ++ [EvAppend (clamp_unit x); EvRandn (shape x);
                    EvScore x (sigma_broadcast sigma x)]).



(** Every noise level once, in order, [T] inner steps each. *)
Definition spec_schedule (sigmas : list F) (T : nat) : list F :=
  flat_map (fun sigma => repeat sigma T) sigmas.

Definition spec_sampler (x : tensor F) (sigmas : list F) (eps : F) (T : nat)
  : progress :=
  fold_left (spec_iteration eps (last sigmas s_zero))
            (spec_schedule sigmas T)
            (Progress x 0 [] []).

(** The score network keeps the shape of the sample it is given. *)
Definition shape_preserving : Prop :=
  forall x used : tensor F, shape (score_nn x used) = shape x.

(** The actions of the inner iterations: the log without the reads of the
    noise schedule. *)
Definition is_schedule_read (e : @event F) : bool :=
  match e with
  | EvGather _ | EvLast => true
  | _ => false
  end.

Definition iteration_events (l : list (@event F)) : list (@event F) :=
  filter (fun e => negb (is_schedule_read e)) l.

Definition schedule_reads (l : list (@event F)) : list (@event F) :=
  filter is_schedule_read l.

(** The first arguments of the calls to the score network, in order. *)
Fixpoint score_inputs (l : list (@event F)) : list (tensor F) :=
  match l with
  | [] => []
  | EvScore x _ :: l' => x :: score_inputs l'
  | _ :: l' => score_inputs l'
  end.


(** The loop state [xs] and the world [w] of the program stand where the
    specification's run [st] stands, the schedule having been read as
    [reads] says. *)
Definition matches (st : progress) (reads : list (@event F))
  (xs : tensor F * list (tensor F)) (w : @world F) : Prop :=
  cur_x st = fst xs /\ cur_pos st = rng_pos w /\ snapshots st = snd xs /\
  actions st = iteration_events (log w) /\ reads = schedule_reads (log w).

(** The reads of the schedule at the level [label], for a batch of [n]. *)
Definition level_reads (n label : nat) : list (@event F) :=
  [EvGather (repeat label n); EvLast].

(** A snapshot is the clamp of some tensor. *)
Definition clamped (s : tensor F) : Prop := exists y, s = clamp_unit y.

End Specification.

(** ** The sampler over an object store *)

(** Python variables hold references to tensor objects.  To answer
    whether the caller's tensor is written to, the sampler is given a
    second reading in which every tensor lives at an address of a store,
    every torch operation allocates its result, and an assignment binds a
    name to an address. *)

Section ObjectStore.

Context {F : Type} {SF : Scalar F}.

Variable draws : nat -> F.
Variable score_nn : tensor F -> tensor F -> tensor F.

Definition ref : Type := nat.

Record pyworld : Type := PyWorld { heap : list (tensor F); outside : @world F }.

(** A new object, at the next free address. *)
Definition alloc (t : tensor F) : M pyworld ref :=
  fun pw => Ok (length (heap pw), PyWorld (heap pw ++ [t]) (outside pw)).

(** The object a reference points to.  References come from [alloc] or
    from the caller, so the failing branch is not taken by the sampler. *)
Definition load (r : ref) : M pyworld (tensor F) :=
  fun pw => match nth_error (heap pw) r with
            | Some t => Ok (t, pw)
            | None => Raise RuntimeError
            end.

(** An action on the generator and the log, leaving the store alone. *)
Definition effect {A} (m : M world A) : M pyworld A :=
  fun pw => match m (outside pw) with
            | Ok (a, w') => Ok (a, PyWorld (heap pw) w')
            | Raise e => Raise e
            end.

Definition ref_size0 (x : ref) : M pyworld nat :=
  t <- load x ;; ret (size0 t).

Definition ref_clamp (x : ref) (lo hi : F) : M pyworld ref :=
  t <- load x ;; alloc (clamp t lo hi).

(** [.to('cpu')] of a tensor that is on the host already returns the
    tensor itself. *)
Definition ref_to_cpu (x : ref) : M pyworld ref := ret x.

Definition ref_randn_like (x : ref) : M pyworld ref :=
  t <- load x ;; r <- effect (randn_like draws t) ;; alloc r.

Definition ref_mul_scalar (x : ref) (c : F) : M pyworld ref :=
  t <- load x ;; alloc (mul_scalar t c).

Definition ref_scalar_mul (c : F) (x : ref) : M pyworld ref :=
  t <- load x ;; alloc (scalar_mul c t).

Definition ref_add (a b : ref) : M pyworld ref :=
  ta <- load a ;; tb <- load b ;; t <- lift (tensor_add ta tb) ;; alloc t.

(** The score network reads its two arguments and returns a new tensor. *)
Definition ref_call_score (x used_sigmas : ref) : M pyworld ref :=
  tx <- load x ;; tu <- load used_sigmas ;;
  s <- effect (call_score score_nn tx tu) ;; alloc s.

Definition ref_append (samples : list ref) (r : ref) : M pyworld (list ref) :=
  t <- load r ;; _ <- effect (emit (EvAppend t)) ;; ret (samples ++ [r]).

Definition ref_inner_body (used_sigmas : ref) (step : F) (t : nat)
  (st : ref * list ref) : M pyworld (ref * list ref) :=
  let '(x, samples) := st in
  c <- ref_clamp x s_neg_one s_one ;;
  snapshot <- ref_to_cpu c ;;
  samples' <- ref_append samples snapshot ;;
  r <- ref_randn_like x ;;
  z <- ref_mul_scalar r (s_sqrt (s_mul s_two step)) ;;
  score <- ref_call_score x used_sigmas ;;
  scaled <- ref_scalar_mul step score ;;
  a <- ref_add x scaled ;;
  x' <- ref_add a z ;;
  ret (x', samples').

Definition ref_outer_body (sigmas : list F) (eps : F) (T : nat) (ls : nat * F)
  (st : ref * list ref) : M pyworld (ref * list ref) :=
  let '(label, sigma) := ls in
  n <- ref_size0 (fst st) ;;
  g <- effect (gather sigmas (repeat label n)) ;;
  used_sigmas <- alloc (view_col g) ;;
  l <- effect (index_last sigmas) ;;
  let step := step_size eps sigma l in
  for_in (range T) (ref_inner_body used_sigmas step) st.

(** The nested loops on references: the local [x] starts as the caller's
    reference and is rebound at every update. *)
Definition ref_anneal_loop (x : ref) (sigmas : list F) (eps : F) (T : nat)
  : M pyworld (ref * list ref) :=
  for_in (enumerate sigmas) (ref_outer_body sigmas eps T) (x, []).

Definition ref_sample_anneal_langevin (x : ref) (sigmas : list F) (eps : F)
  (T : nat) : M pyworld (list ref) :=
  st <- ref_anneal_loop x sigmas eps T ;; ret (snd st).

(** The tensors a list of references denotes in a store. *)
Definition deref_all (h : list (tensor F)) (rs : list ref)
  : list (option (tensor F)) :=
  map (nth_error h) rs.

(** A store that keeps every object of [h] where it was and as it was. *)
Definition heap_extends (h h' : list (tensor F)) : Prop :=
  exists extra, h' = h ++ extra.

(** The computation [m], run from [pw], returns and its outcome
    satisfies [Q]. *)
Definition ensures {A} (m : M pyworld A) (pw : pyworld)
  (Q : A -> pyworld -> Prop) : Prop :=
  exists a pw', m pw = Ok (a, pw') /\ Q a pw'.

(** The references of the loop state denote the values of the loop state
    of the sampler on values. *)
Definition denotes (h : list (tensor F)) (rs : ref * list ref)
  (xs : tensor F * list (tensor F)) : Prop :=
  nth_error h (fst rs) = Some (fst xs) /\
  deref_all h (snd rs) = map Some (snd xs).

(** The reading of "mutated in place": when the loops end, the local [x]
    is still the object the caller passed. *)
Definition updates_in_place (x : ref) (sigmas : list F) (eps : F) (T : nat)
  (pw : pyworld) : Prop :=
  forall x' samples pw',
    ref_anneal_loop x sigmas eps T pw = Ok ((x', samples), pw') -> x' = x.

End ObjectStore.

(** ** The attention layer's constructor *)

Section AttentionLayer.

Variable F : Type.

(** Python's [int ** float] on a positive base, and the constant [-0.5]. *)
Variable float_pow : Z -> F -> F.
Variable neg_half : F.

(** [nn.Linear(in_features, out_features)], as far as its sizes go. *)
Record Linear : Type := { in_features : Z; out_features : Z }.

(** The weight of a linear layer is allocated with these sizes; a
    negative size is refused. *)
Definition new_Linear (i o : Z) : result Linear :=
  if ((i <? 0) || (o <? 0))%Z then Raise RuntimeError
  else Ok {| in_features := i; out_features := o |}.

Record AttLayer : Type := {
  att_dim : Z;
  scale : F;
  n_heads : Z;
  proj : Linear;
  out : Linear
}.

(** [AttLayer.__init__(n_channels, n_heads)].  Zero to a negative power
    raises; a negative base would give a complex number, and the
    constructor then stops at the first [nn.Linear], whose input size is
    negative. *)
Definition AttLayer_init (n_channels heads : Z) : result AttLayer :=
  let dim := (n_channels * 10)%Z in
  if (dim =? 0)%Z then Raise ZeroDivisionError
  else if (dim <? 0)%Z then Raise RuntimeError
  else
    let sc := float_pow dim neg_half in
    result_bind (new_Linear n_channels (3 * heads * dim)) (fun p =>
    result_bind (new_Linear (heads * dim) n_channels) (fun o =>
    Ok {| att_dim := dim; scale := sc; n_heads := heads; proj := p; out := o |})).

End AttentionLayer.

(** ** Concrete inputs *)

(** Inputs on which the definitions above are run below: binary64
    tensors, a score network that returns the negated sample or zeros,
    and constant random streams. *)

Section Inputs.

Local Set Warnings "-inexact-float".
Local Open Scope float_scope.

Definition zeros (s : shape4) : tensor float := Tensor s (repeat 0 (numel s)).

Definition zero_score (x used : tensor float) : tensor float := zeros (shape x).

Definition neg_score (x used : tensor float) : tensor float :=
  tmap (fun v => - v) x.

Definition zero_draws (k : nat) : float := 0.

Definition quarter_draws (k : nat) : float := 0.25.

(** A stream that leaves the constant after its first eight values. *)
Definition late_draws (k : nat) : float := if (k <? 8)%nat then 0.25 else 7.

Definition demo_x : tensor float := Tensor (Shape 1 1 1 2) [0.5; 3].

Definition demo_sigmas : list float := [2; 1].

(** A finite sample close to the largest binary64 number. *)
Definition huge_x : tensor float := Tensor (Shape 1 1 1 1) [0x1p+1023].

(** A decreasing schedule of positive noise levels, and the default [eps]. *)
Definition decreasing_sigmas : list float := [1; 0.6; 0.01].

Definition default_eps : float := 6.2e-6.

(** ** Two sentences of the specification, as they are written *)

(** [v] lies in the closed interval [-1, 1]. *)
Definition in_unit_interval (v : float) : bool := (-1 <=? v) && (v <=? 1).

(** Every value in every snapshot lies within [-1, 1]. *)
Definition all_in_unit_interval (samples : list (tensor float)) : Prop :=
  Forall (fun s => Forall (fun v => in_unit_interval v = true) (data s)) samples.

End Inputs.

(** [step_size(sigma_i) / step_size(sigma_j) == (sigma_i / sigma_j)^2] *)
Definition ratio_law {F : Type} {SF : Scalar F} (eps : F) (sigmas : list F)
  (si sj : F) : Prop :=
  s_div (step_size eps si (last sigmas s_zero))
        (step_size eps sj (last sigmas s_zero))
  = sq (s_div si sj).

(** ** Invariants of the object store *)

Section StoreInvariants.

Context {F : Type}.

(** An operation that, when it returns, has put one object in the store,
    at the first free address, and returns that address. *)
Definition allocates_one (m : M (@pyworld F) ref) : Prop :=
  forall pw r pw',
    m pw = Ok (r, pw') ->
    r = length (heap pw) /\ length (heap pw') = S (length (heap pw)).

(** The snapshots recorded so far are objects created since the call
    began ([n0] is the size of the store at that time), no two of them the
    same, and the sample is none of them. *)
Definition fresh_snapshots (n0 : nat) (st : ref * list ref) (pw : @pyworld F)
  : Prop :=
  n0 <= length (heap pw) /\
  Forall (fun r => n0 <= r < length (heap pw)) (snd st) /\
  NoDup (snd st) /\
  ~ In (fst st) (snd st).

End StoreInvariants.

(** ** Elementary functions *)

(** The functions of the math library that the layers call, next to the
    arithmetic of [Scalar]. *)
Class Elementary (F : Type) : Type := {
  e_of_int : Z -> F;
  e_neg : F -> F;
  e_log : F -> F;
  e_exp : F -> F;
  e_sin : F -> F;
  e_cos : F -> F;
  e_sigmoid : F -> F
}.

(** Over the real numbers; the sigmoid is [1 / (1 + exp(-x))]. *)
#[export] Instance real_functions : Elementary R := {
  e_of_int := IZR;
  e_neg := Ropp;
  e_log := ln;
  e_exp := exp;
  e_sin := sin;
  e_cos := cos;
  e_sigmoid := fun x => (/ (1 + exp (- x)))%R
}.

(** ** Two-dimensional tensors and the layers of the time embedding *)

Section TimeEmbedding.

Context {F : Type} {SF : Scalar F} {EF : Elementary F}.

(** A tensor of shape [n_rows x n_cols], row by row. *)
Record matrix : Type := Matrix {
  n_rows : nat;
  n_cols : nat;
  entries : list (list F)
}.

Definition matrix_ok (m : matrix) : Prop :=
  length (entries m) = n_rows m /\
  Forall (fun row => length row = n_cols m) (entries m).

(** [torch.cat((a, b), dim=1)] *)
Definition cat_cols (a b : matrix) : result matrix :=
  if n_rows a =? n_rows b then
    Ok (Matrix (n_rows a) (n_cols a + n_cols b)
          (map (fun rs => fst rs ++ snd rs) (combine (entries a) (entries b))))
  else Raise RuntimeError.

(** [Swish.forward]: [x * torch.sigmoid(x)] *)
Definition Swish_forward (x : matrix) : matrix :=
  Matrix (n_rows x) (n_cols x)
    (map (map (fun v => s_mul v (e_sigmoid v))) (entries x)).

(** [PositionalEncoding.forward(t, n_embed)], for [t] of shape [b_size].
    The division by [n_embed // 2] is Python's and raises on zero;
    [torch.arange] refuses a negative bound.  [t[:, None] * out[None, :]]
    is the table of the products [t_b * out_j]. *)
Definition PositionalEncoding_forward (t : list F) (n_embed : Z)
  : result matrix :=
  let half := (n_embed / 2)%Z in
  if (half =? 0)%Z then Raise ZeroDivisionError
  else
    let h := s_div (e_log (e_of_int 10000)) (e_of_int half) in
    if (half <? 0)%Z then Raise RuntimeError
    else
      let dims := map Z.of_nat (seq 0 (Z.to_nat half)) in
      let out := map (fun d => e_exp (s_mul (e_of_int d) (e_neg h))) dims in
      let out1 := map (fun tb => map (fun f => e_sin (s_mul tb f)) out) t in
      let out2 := map (fun tb => map (fun f => e_cos (s_mul tb f)) out) t in
      cat_cols (Matrix (length t) (length out) out1)
               (Matrix (length t) (length out) out2).

(** [nn.Linear] with its parameters: [weight] has [lin_out] rows of
    [lin_in] entries. *)
Record LinearLayer : Type := {
  lin_in : Z;
  lin_out : Z;
  weight : list (list F);
  bias : list F
}.

(** [nn.Linear(i, o)]; the initial values of the parameters are those
    the initialiser produces, [w_init r c] for the weight and [b_init r]
    for the bias. *)
Definition LinearLayer_new (w_init : nat -> nat -> F) (b_init : nat -> F)
  (i o : Z) : result LinearLayer :=
  if ((i <? 0) || (o <? 0))%Z then Raise RuntimeError
  else Ok {| lin_in := i;
             lin_out := o;
             weight := map (fun r => map (w_init r) (seq 0 (Z.to_nat i)))
                           (seq 0 (Z.to_nat o));
             bias := map b_init (seq 0 (Z.to_nat o)) |}.

Definition dot (a b : list F) : F :=
  fold_left (fun acc ab => s_add acc (s_mul (fst ab) (snd ab))) (combine a b)
            s_zero.

(** [x @ weight.T + bias]; the last dimension of [x] has to be
    [in_features]. *)
Definition Linear_forward (l : LinearLayer) (x : matrix) : result matrix :=
  if (Z.of_nat (n_cols x) =? lin_in l)%Z then
    Ok (Matrix (n_rows x) (Z.to_nat (lin_out l))
          (map (fun row =>
                  map (fun wb => s_add (dot row (fst wb)) (snd wb))
                      (combine (weight l) (bias l)))
               (entries x)))
  else Raise RuntimeError.

Record EmbLayer : Type := {
  n_embed_scaled : Z;
  lin1 : LinearLayer;
  lin2 : LinearLayer
}.

(** [EmbLayer.__init__(n_embed, scale_fact)] *)
Definition EmbLayer_init (w1 : nat -> nat -> F) (b1 : nat -> F)
  (w2 : nat -> nat -> F) (b2 : nat -> F) (n_embed scale_fact : Z)
  : result EmbLayer :=
  if (scale_fact =? 0)%Z then Raise ZeroDivisionError
  else
    let scaled := (n_embed / scale_fact)%Z in
    result_bind (LinearLayer_new w1 b1 scaled n_embed) (fun l1 =>
    result_bind (LinearLayer_new w2 b2 n_embed n_embed) (fun l2 =>
    Ok {| n_embed_scaled := scaled; lin1 := l1; lin2 := l2 |})).

(** [EmbLayer.forward(t)] *)
Definition EmbLayer_forward (layer : EmbLayer) (t : list F) : result matrix :=
  result_bind (PositionalEncoding_forward t (n_embed_scaled layer))
    (fun t_embed =>
  result_bind (Linear_forward (lin1 layer) t_embed) (fun a =>
  Linear_forward (lin2 layer) (Swish_forward a))).

End TimeEmbedding.

Arguments matrix F : clear implicits.
Arguments LinearLayer F : clear implicits.
Arguments EmbLayer F : clear implicits.

(** ** The constructors of the UNet layers *)

(** The constructors of torch's modules raise a third kind of exception,
    Python's [ValueError], next to those of [exn]. *)
Inductive py_exn : Type :=
| Exn (e : exn)
| ValueError.

Inductive outcome (A : Type) : Type :=
| Built (a : A)
| Failed (e : py_exn).

Arguments Built {A} a.
Arguments Failed {A} e.

Definition outcome_bind {A B} (r : outcome A) (k : A -> outcome B) : outcome B :=
  match r with
  | Built a => k a
  | Failed e => Failed e
  end.

Definition of_result {A} (r : result A) : outcome A :=
  match r with
  | Ok a => Built a
  | Raise e => Failed (Exn e)
  end.

(** [for a in l: s = body(a, s)], with constructors that can fail. *)
Fixpoint outcome_for {A S} (l : list A) (body : A -> S -> outcome S) (s : S)
  : outcome S :=
  match l with
  | [] => Built s
  | a :: l' => outcome_bind (body a s) (fun s' => outcome_for l' body s')
  end.

(** [nn.Conv2d] and [nn.ConvTranspose2d], as far as their sizes go. *)
Record Conv : Type := {
  transposed : bool;
  conv_in : Z;
  conv_out : Z;
  kernel_size : Z;
  stride : Z;
  padding : Z
}.

(** The weight of a convolution is allocated with the two channel
    counts, and a negative size is refused. *)
Definition new_Conv (tr : bool) (i o k s p : Z) : outcome Conv :=
  if ((i <? 0) || (o <? 0))%Z then Failed (Exn RuntimeError)
  else Built {| transposed := tr; conv_in := i; conv_out := o;
                kernel_size := k; stride := s; padding := p |}.

Definition Conv2d (i o k s p : Z) : outcome Conv := new_Conv false i o k s p.

Definition ConvTranspose2d (i o k s p : Z) : outcome Conv :=
  new_Conv true i o k s p.

Record GroupNorm : Type := { num_groups : Z; num_channels : Z }.

(** [nn.GroupNorm(num_groups, num_channels)] tests
    [num_channels % num_groups != 0] and raises [ValueError] when it
    holds, before it allocates its weight. *)
Definition new_GroupNorm (groups channels : Z) : outcome GroupNorm :=
  if (groups =? 0)%Z then Failed (Exn ZeroDivisionError)
  else if negb (channels mod groups =? 0)%Z then Failed ValueError
  else if (channels <? 0)%Z then Failed (Exn RuntimeError)
  else Built {| num_groups := groups; num_channels := channels |}.

(** [ResBlock]; [shortcut] is [None] for [nn.Identity()]. *)
Record ResBlock : Type := {
  conv1 : Conv;
  norm1 : GroupNorm;
  conv2 : Conv;
  norm2 : GroupNorm;
  shortcut : option Conv;
  emb : Linear
}.

(** [ResBlock.__init__(in_channels, out_channels, n_embed, n_groups)] *)
Definition ResBlock_init (in_channels out_channels n_embed n_groups : Z)
  : outcome ResBlock :=
  outcome_bind (Conv2d in_channels out_channels 3 1 1) (fun c1 =>
  outcome_bind (new_GroupNorm n_groups in_channels) (fun n1 =>
  outcome_bind (Conv2d out_channels out_channels 3 1 1) (fun c2 =>
  outcome_bind (new_GroupNorm n_groups out_channels) (fun n2 =>
  outcome_bind
    (if negb (in_channels =? out_channels)%Z
     then outcome_bind (Conv2d in_channels out_channels 1 1 0)
            (fun c => Built (Some c))
     else Built None) (fun sc =>
  outcome_bind (of_result (new_Linear n_embed out_channels)) (fun e =>
  Built {| conv1 := c1; norm1 := n1; conv2 := c2; norm2 := n2;
           shortcut := sc; emb := e |})))))).

(** The default of [n_groups]. *)
Definition default_n_groups : Z := 32.

Record DownSample : Type := { down_conv : Conv }.

(** [DownSample.__init__(in_channels, out_channels)] *)
Definition DownSample_init (in_channels out_channels : Z) : outcome DownSample :=
  outcome_bind (Conv2d out_channels out_channels 3 2 1) (fun c =>
  Built {| down_conv := c |}).

Record UpSample : Type := { up_conv : Conv }.

(** [UpSample.__init__(in_channels, out_channels)] *)
Definition UpSample_init (in_channels out_channels : Z) : outcome UpSample :=
  let out := if (in_channels <? out_channels)%Z then (out_channels / 2)%Z
             else out_channels in
  outcome_bind (ConvTranspose2d out_channels out 4 2 1) (fun c =>
  Built {| up_conv := c |}).

(** The classes of the modules of a block, and the two that can be
    passed as [sample]. *)
Inductive layer_class : Type :=
| ResBlock_class
| AttLayer_class
| DownSample_class
| UpSample_class.

Definition class_eqb (a b : layer_class) : bool :=
  match a, b with
  | ResBlock_class, ResBlock_class
  | AttLayer_class, AttLayer_class
  | DownSample_class, DownSample_class
  | UpSample_class, UpSample_class => true
  | _, _ => false
  end.

Inductive sample_class : Type :=
| sample_DownSample
| sample_UpSample.

Definition class_of_sample (cls : sample_class) : layer_class :=
  match cls with
  | sample_DownSample => DownSample_class
  | sample_UpSample => UpSample_class
  end.

(** The classes of the layers [_make_block] appends, in order: in round
    [i] a residual block, followed by an attention layer when [is_attn]
    holds and the round is not the last one; then the sampling layer. *)
Definition round_classes (num_res : Z) (is_attn : bool) (i : nat)
  : list layer_class :=
  ResBlock_class ::
  (if is_attn && negb (Z.of_nat i =? num_res - 1)%Z then [AttLayer_class]
   else []).

Definition block_classes (num_res : Z) (sample : option sample_class)
  (is_attn : bool) : list layer_class :=
  flat_map (round_classes num_res is_attn) (seq 0 (Z.to_nat num_res)) ++
  match sample with
  | Some cls => [class_of_sample cls]
  | None => []
  end.

Section UnetBlockConstructor.

Variable F : Type.
Variable float_pow : Z -> F -> F.
Variable neg_half : F.

Inductive Layer : Type :=
| LRes (r : ResBlock)
| LAtt (a : AttLayer F)
| LDown (d : DownSample)
| LUp (u : UpSample).

(** The default of [n_heads]. *)
Definition default_n_heads : Z := 1.

(** [self.sample(self.in_channels, self.out_channels)] *)
Definition new_sample (cls : sample_class) (in_channels out_channels : Z)
  : outcome Layer :=
  match cls with
  | sample_DownSample =>
      outcome_bind (DownSample_init in_channels out_channels) (fun d =>
      Built (LDown d))
  | sample_UpSample =>
      outcome_bind (UpSample_init in_channels out_channels) (fun u =>
      Built (LUp u))
  end.

(** The body of [for i in range(self.num_res)]; the state is the list
    [model] and the local [in_channels]. *)
Definition make_block_body (out_channels n_embed num_res : Z) (is_attn : bool)
  (i : nat) (st : list Layer * Z) : outcome (list Layer * Z) :=
  let '(model, in_channels) := st in
  outcome_bind
    (ResBlock_init in_channels out_channels n_embed default_n_groups)
    (fun r =>
  let model := model ++ [LRes r] in
  outcome_bind
    (if is_attn && negb (Z.of_nat i =? num_res - 1)%Z
     then outcome_bind
            (of_result (AttLayer_init float_pow neg_half out_channels
                          default_n_heads))
            (fun a => Built (model ++ [LAtt a]))
     else Built model) (fun model =>
  Built (model, out_channels))).

(** [UnetBlock._make_block], from the fields of the block. *)
Definition make_block (in_channels out_channels n_embed num_res : Z)
  (sample : option sample_class) (is_attn : bool) : outcome (list Layer) :=
  outcome_bind
    (outcome_for (seq 0 (Z.to_nat num_res))
       (make_block_body out_channels n_embed num_res is_attn)
       ([], in_channels)) (fun st =>
  match sample with
  | Some cls =>
      outcome_bind (new_sample cls in_channels out_channels) (fun s =>
      Built (fst st ++ [s]))
  | None => Built (fst st)
  end).

Definition class_of_layer (l : Layer) : layer_class :=
  match l with
  | LRes _ => ResBlock_class
  | LAtt _ => AttLayer_class
  | LDown _ => DownSample_class
  | LUp _ => UpSample_class
  end.

(** The number of channels a layer takes and the number it gives. *)
Definition channels_in (l : Layer) : Z :=
  match l with
  | LRes r => conv_in (conv1 r)
  | LAtt a => in_features (proj a)
  | LDown d => conv_in (down_conv d)
  | LUp u => conv_in (up_conv u)
  end.

Definition channels_out (l : Layer) : Z :=
  match l with
  | LRes r => conv_out (conv2 r)
  | LAtt a => out_features (out a)
  | LDown d => conv_out (down_conv d)
  | LUp u => conv_out (up_conv u)
  end.

(** Every layer of [block] takes the number of channels the layer
    before it gives, the first one taking [c]. *)
Fixpoint chained (c : Z) (block : list Layer) : Prop :=
  match block with
  | [] => True
  | l :: rest => channels_in l = c /\ chained (channels_out l) rest
  end.

(** The number of channels that leave [block] when [c] enter it. *)
Fixpoint channels_after (c : Z) (block : list Layer) : Z :=
  match block with
  | [] => c
  | l :: rest => channels_after (channels_out l) rest
  end.

Definition count_class (cls : layer_class) (block : list Layer) : nat :=
  length (filter (fun l => class_eqb (class_of_layer l) cls) block).

(** [isinstance(layer, DownSample)] *)
Definition isinstance_DownSample (l : Layer) : bool :=
  match l with
  | LDown _ => true
  | _ => false
  end.

End UnetBlockConstructor.

(** ** The forward pass of a block *)

Section UnetBlockForward.

(** The modules of a block, the tensors and the time embeddings; what
    [isinstance(layer, DownSample)] answers and what [layer(x, t_emb)]
    returns. *)
Variables Mod X E : Type.
Variable is_DownSample : Mod -> bool.
Variable call : Mod -> X -> E -> result X.

(** [UnetBlock.forward(x, t_emb)]: the pair [(x1, x2)]. *)
Fixpoint UnetBlock_forward (block : list Mod) (x : X) (t_emb : E)
  : result (X * option X) :=
  match block with
  | [] => Ok (x, None)
  | layer :: rest =>
      if is_DownSample layer then
        result_bind (call layer x t_emb) (fun x1 => Ok (x1, Some x))
      else
        result_bind (call layer x t_emb) (fun x' =>
        UnetBlock_forward rest x' t_emb)
  end.

(** The layers of a list applied one after the other. *)
Fixpoint apply_layers (layers : list Mod) (x : X) (t_emb : E) : result X :=
  match layers with
  | [] => Ok x
  | layer :: rest =>
      result_bind (call layer x t_emb) (fun x' => apply_layers rest x' t_emb)
  end.

End UnetBlockForward.

(** Python's [int ** float] over the reals. *)
Definition real_pow (b : Z) (e : R) : R := Rpower (IZR b) e.

(** A layer applied to a number of channels: it refuses a number that is
    not the one it takes. *)
Definition channel_call (l : Layer R) (c : Z) (t_emb : unit) : result Z :=
  if (c =? channels_in l)%Z then Ok (channels_out l) else Raise RuntimeError.

(** ** The attention of [AttLayer.forward] *)

Section AttentionCore.

Context {F : Type} {SF : Scalar F} {EF : Elementary F}.

(** A tensor of rank 4 by its entries; the sizes are passed where a sum
    runs over a dimension. *)
Definition entries4 : Type := nat -> nat -> nat -> nat -> F.

(** The sum of [f 0], ..., [f (n - 1)]. *)
Definition sum_range (n : nat) (f : nat -> F) : F :=
  fold_left (fun acc i => s_add acc (f i)) (seq 0 n) s_zero.

(** [torch.einsum('bihd,bjhd->bijh', q, k)], with [att_dim] entries in
    the last dimension. *)
Definition einsum_qk (dim : nat) (q k : entries4) : entries4 :=
  fun b i j h => sum_range dim (fun d => s_mul (q b i h d) (k b j h d)).

(** [prod.softmax(dim=1)] for [prod] of shape [b x n x n x heads]: the
    exponentials are divided by their sum over the second index. *)
Definition softmax_dim1 (n : nat) (prod : entries4) : entries4 :=
  fun b i j h =>
    s_div (e_exp (prod b i j h)) (sum_range n (fun i' => e_exp (prod b i' j h))).

(** [torch.einsum('bijh,bjhd->bihd', soft, v)] *)
Definition einsum_sv (n : nat) (soft v : entries4) : entries4 :=
  fun b i h d => sum_range n (fun j => s_mul (soft b i j h) (v b j h d)).

(** Lines 181 to 189 of [AttLayer.forward], from [q], [k] and [v] of
    shape [b x n x heads x dim] to the tensor of the same shape that is
    passed to the output map. *)
Definition attention (n dim : nat) (scale : F) (q k v : entries4) : entries4 :=
  let prod := fun b i j h => s_mul (einsum_qk dim q k b i j h) scale in
  let soft := softmax_dim1 n prod in
  einsum_sv n soft v.

End AttentionCore.

(** * Properties *)

(** ** Runs on concrete inputs *)

Section Runs.

Local Set Warnings "-inexact-float".
Local Open Scope float_scope.

(** Shapes [2,1,1,2] and [1,1,3,1] broadcast to [2,1,3,2]. *)
Example broadcast_add :
  tensor_add (Tensor (Shape 2 1 1 2) [1; 2; 3; 4])
             (Tensor (Shape 1 1 3 1) [10; 20; 30])
  = Ok (Tensor (Shape 2 1 3 2)
          [11; 12; 21; 22; 31; 32; 13; 14; 23; 24; 33; 34]).
Proof. vm_compute. reflexivity. Qed.

(** Sizes 2 and 3 in one dimension do not. *)
Example broadcast_mismatch :
  tensor_add (Tensor (Shape 2 1 1 2) [1; 2; 3; 4])
             (Tensor (Shape 3 1 1 2) [1; 2; 3; 4; 5; 6])
  = Raise RuntimeError.
Proof. reflexivity. Qed.

(** Two levels, two steps each; [eps = 0.5], every random value 0.25 and
    the score [-x].  At the first level the step size is 2 and the noise
    0.5; at the second they are 0.5 and 0.25. *)
Example two_levels_two_steps :
  returned (sample_anneal_langevin quarter_draws neg_score demo_x demo_sigmas
              0.5 2 start)
  = Ok [Tensor (Shape 1 1 1 2) [0.5; 1]; Tensor (Shape 1 1 1 2) [0; -1];
        Tensor (Shape 1 1 1 2) [0.5; 1]; Tensor (Shape 1 1 1 2) [0.5; 1]].
Proof. vm_compute. reflexivity. Qed.

(** With [T = 0] the schedule is read and nothing else happens. *)
Example no_inner_step :
  sample_anneal_langevin quarter_draws neg_score demo_x demo_sigmas 0.5 0 start
  = Ok ([], World 0 [EvGather [0%nat]; EvLast; EvGather [1%nat]; EvLast]).
Proof. reflexivity. Qed.

(** A NaN in the input is still there in the snapshots. *)
Example nan_input :
  returned (sample_anneal_langevin quarter_draws neg_score
              (Tensor (Shape 1 1 1 2) [nan; 0.5]) [1] 0.5 2 start)
  = Ok [Tensor (Shape 1 1 1 2) [nan; 0.5]; Tensor (Shape 1 1 1 2) [nan; 0.5]].
Proof. vm_compute. reflexivity. Qed.

(** A score of another batch size: the sum broadcasts and the second
    snapshot has the shape of the score, not of the input. *)
Example score_of_other_shape :
  returned (sample_anneal_langevin quarter_draws
              (fun _ _ => Tensor (Shape 2 1 1 1) [1; 2])
              (Tensor (Shape 1 1 1 1) [1]) [1] 0.5 2 start)
  = Ok [Tensor (Shape 1 1 1 1) [1]; Tensor (Shape 2 1 1 1) [1; 1]].
Proof. vm_compute. reflexivity. Qed.

(** A score whose shape cannot be broadcast with the sample's: the call
    raises. *)
Example score_of_wrong_shape :
  returned (sample_anneal_langevin quarter_draws
              (fun _ _ => Tensor (Shape 3 1 1 2) [1; 2; 3; 4; 5; 6])
              (Tensor (Shape 2 1 1 2) [1; 2; 3; 4]) [1] 0.5 2 start)
  = Raise RuntimeError.
Proof. reflexivity. Qed.

(** The step sizes of the first two levels of [decreasing_sigmas]. *)
Example default_step_sizes :
  step_size default_eps 1 0.01 = 0.062 /\
  step_size default_eps 0.6 0.01 = 0.02232.
Proof. split; vm_compute; reflexivity. Qed.

(** The constructor of the attention layer on no channel, and on a
    negative number of heads. *)
Example att_layer_refused :
  AttLayer_init (fun b e => Rpower (IZR b) e) (- / 2)%R 0 1
  = Raise ZeroDivisionError /\
  AttLayer_init (fun b e => Rpower (IZR b) e) (- / 2)%R 3 (-1)
  = Raise RuntimeError.
Proof. split; reflexivity. Qed.

End Runs.

(** ** Tensor arithmetic *)

Section TensorFacts.
Context {F : Type} {SF : Scalar F}.

Lemma broadcast_dim_same (a : nat) : broadcast_dim a a = Ok a.
Proof. unfold broadcast_dim. now rewrite Nat.eqb_refl. Qed.

Lemma broadcast_shape_same (s : shape4) : broadcast_shape s s = Ok s.
Proof.
  unfold broadcast_shape. rewrite !broadcast_dim_same. simpl. now destruct s.
Qed.

Lemma stretch_small (d i : nat) : i < d -> stretch d i = i.
Proof.
  unfold stretch. destruct (Nat.eqb_spec d 1); lia.
Qed.

Lemma ravel_unravel (s : shape4) (k : nat) :
  k < numel s -> ravel s (unravel s k) = k.
Proof.
  destruct s as [d0 d1 d2 d3]. unfold numel, ravel, unravel. simpl. intros Hk.
  assert (H3 : d3 <> 0) by (intros ->; lia).
  assert (H2 : d2 <> 0) by (intros ->; lia).
  assert (H1 : d1 <> 0) by (intros ->; lia).
  assert (E23 : k / (d2 * d3) = k / d3 / d2)
    by (rewrite (Nat.mul_comm d2 d3); now rewrite Nat.Div0.div_div).
  assert (E123 : k / (d1 * d2 * d3) = k / d3 / d2 / d1).
  { replace (d1 * d2 * d3) with (d3 * d2 * d1) by lia.
    now rewrite <- !Nat.Div0.div_div. }
  rewrite E23, E123.
  assert (B0 : k / d3 / d2 / d1 < d0).
  { apply Nat.Div0.div_lt_upper_bound. apply Nat.Div0.div_lt_upper_bound.
    apply Nat.Div0.div_lt_upper_bound. lia. }
  rewrite !stretch_small; auto using Nat.mod_upper_bound.
  pose proof (Nat.div_mod_eq k d3).
  pose proof (Nat.div_mod_eq (k / d3) d2).
  pose proof (Nat.div_mod_eq (k / d3 / d2) d1).
  nia.
Qed.


Lemma nth_map_in {A B} (f : A -> B) (l : list A) (k : nat) (d : B) (d' : A) :
  k < length l -> nth k (map f l) d = f (nth k l d').
Proof.
  intros Hk. rewrite (nth_indep _ d (f d')) by now rewrite length_map.
  apply map_nth.
Qed.

Lemma map_seq_axpy (c : F) (a s z : list F) (n : nat) :
  length a = n -> length s = n -> length z = n ->
  map (fun k => s_add (s_add (nth k a s_zero) (s_mul c (nth k s s_zero)))
                      (nth k z s_zero)) (seq 0 n)
  = axpy c a s z.
Proof.
  revert s z n. induction a as [|av a IH]; intros s z n Ha Hs Hz.
  - simpl in Ha. subst n. reflexivity.
  - destruct n as [|n]; [discriminate|].
    destruct s as [|sv s]; [discriminate|].
    destruct z as [|zv z]; [discriminate|].
    simpl in *. f_equal.
    rewrite <- seq_shift, map_map. apply IH; lia.
Qed.

Lemma tensor_add_same (a b : tensor F) :
  shape b = shape a -> tensor_add a b = Ok (pointwise_add a b).
Proof.
  intros Hb. unfold tensor_add, pointwise_add.
  rewrite Hb, broadcast_shape_same. simpl.
  do 2 f_equal. apply map_ext_in. intros k Hk. apply in_seq in Hk.
  unfold expand_get. rewrite Hb, ravel_unravel by lia. reflexivity.
Qed.

Lemma langevin_update_same (x score z : tensor F) (step : F) :
  shape score = shape x -> shape z = shape x ->
  langevin_update x step score z
  = Ok (pointwise_add (pointwise_add x (scalar_mul step score)) z).
Proof.
  intros Hs Hz. unfold langevin_update.
  rewrite tensor_add_same by exact Hs. simpl.
  now rewrite tensor_add_same by exact Hz.
Qed.

(** On well-formed operands the update is [x + step * score + z] read
    along the three data lists. *)
Lemma pointwise_update_axpy (x score z : tensor F) (step : F) :
  well_formed x -> well_formed score -> well_formed z ->
  shape score = shape x -> shape z = shape x ->
  data (pointwise_add (pointwise_add x (scalar_mul step score)) z)
  = axpy step (data x) (data score) (data z).
Proof.
  intros Wx Ws Wz Hs Hz. unfold pointwise_add. simpl.
  unfold well_formed in *. rewrite Hs in Ws. rewrite Hz in Wz.
  rewrite <- (map_seq_axpy step _ _ _ Wx Ws Wz).
  apply map_ext_in. intros k Hk. apply in_seq in Hk.
  rewrite nth_map_in with (d' := 0) by (rewrite length_seq; lia).
  rewrite seq_nth by lia. simpl.
  rewrite nth_map_in with (d' := s_zero) by lia. reflexivity.
Qed.

Lemma axpy_length (c : F) (a s z : list F) (n : nat) :
  length a = n -> length s = n -> length z = n ->
  length (axpy c a s z) = n.
Proof.
  revert s z n. induction a as [|av a IH]; intros s z n Ha Hs Hz.
  - simpl in *. congruence.
  - destruct n as [|n]; [discriminate|].
    destruct s as [|sv s]; [discriminate|].
    destruct z as [|zv z]; [discriminate|].
    simpl in *. f_equal. apply IH; lia.
Qed.

End TensorFacts.

(** ** Running the loop bodies *)

(** The body of a loop, unfolded down to the state it returns. *)
Ltac run_inner_body :=
  unfold inner_body, bind, append, randn_like, call_score, emit, ret, lift;
  simpl.

Ltac run_outer_body :=
  unfold outer_body, gather, index_last, bind, emit, ret, lift;
  simpl.

(** ** The program against the specification's run *)

Section Refinement.
Context {F : Type} {SF : Scalar F}.
Variable draws : nat -> F.
Variable score_nn : tensor F -> tensor F -> tensor F.
Hypothesis score_shape : shape_preserving score_nn.

Lemma iteration_events_app (l1 l2 : list (@event F)) :
  iteration_events (l1 ++ l2) = iteration_events l1 ++ iteration_events l2.
Proof. apply filter_app. Qed.

Lemma schedule_reads_app (l1 l2 : list (@event F)) :
  schedule_reads (l1 ++ l2) = schedule_reads l1 ++ schedule_reads l2.
Proof. apply filter_app. Qed.

Lemma inner_body_spec eps last_sigma sigma t st reads xs w :
  matches st reads xs w ->
  exists xs' w',
    inner_body draws score_nn (sigma_broadcast sigma (fst xs))
      (step_size eps sigma last_sigma) t xs w = Ok (xs', w') /\
    matches (spec_iteration draws score_nn eps last_sigma st sigma) reads xs' w' /\
    shape (fst xs') = shape (fst xs).
Proof.
  destruct xs as [x samples]. destruct st as [sx sp ss sa]. destruct w as [p lg].
  unfold matches. simpl. intros (-> & -> & -> & -> & ->).
  pose proof (score_shape x (sigma_broadcast sigma x)) as Hs.
  run_inner_body.
  rewrite langevin_update_same; auto.
  eexists _, _. split; [reflexivity|]. simpl.
  unfold spec_iteration, step_size, scaled_noise, to_cpu, mul_scalar, tmap.
  simpl. rewrite map_map. repeat split.
  - rewrite !iteration_events_app. simpl. rewrite <- !app_assoc. reflexivity.
  - rewrite !schedule_reads_app. simpl. now rewrite !app_nil_r.
Qed.

Lemma sigma_broadcast_shape sigma (x y : tensor F) :
  shape y = shape x -> sigma_broadcast sigma y = sigma_broadcast sigma x.
Proof. unfold sigma_broadcast, size0. now intros ->. Qed.

Lemma inner_loop_spec eps last_sigma sigma reads (ts : list nat) :
  forall st xs w,
    matches st reads xs w ->
    exists xs' w',
      for_in ts (inner_body draws score_nn (sigma_broadcast sigma (fst xs))
                   (step_size eps sigma last_sigma)) xs w = Ok (xs', w') /\
      matches (fold_left (spec_iteration draws score_nn eps last_sigma)
                 (repeat sigma (length ts)) st) reads xs' w' /\
      shape (fst xs') = shape (fst xs).
Proof.
  induction ts as [|t ts IH]; intros st xs w Hm.
  - exists xs, w. simpl. auto.
  - destruct (inner_body_spec eps last_sigma sigma t Hm)
      as (xs1 & w1 & E1 & M1 & S1).
    destruct (IH _ _ _ M1) as (xs2 & w2 & E2 & M2 & S2).
    exists xs2, w2. simpl. unfold bind. rewrite E1.
    rewrite (sigma_broadcast_shape sigma _ _ S1) in E2.
    split; [exact E2|]. split; [exact M2|]. now rewrite S2.
Qed.

Lemma take_all_repeat (sigmas : list F) (i n : nat) (sigma : F) :
  nth_error sigmas i = Some sigma ->
  take_all sigmas (repeat i n) = Ok (repeat sigma n).
Proof.
  intros Hi. induction n as [|n IH]; simpl; [reflexivity|].
  now rewrite Hi, IH.
Qed.

Lemma last_cons (s : F) (rest : list F) (d : F) : last (s :: rest) d = last rest s.
Proof.
  revert s d. induction rest as [|r rest IH]; intros s d; [reflexivity|].
  change (last (s :: r :: rest) d) with (last (r :: rest) d).
  now rewrite (IH r d), (IH r s).
Qed.

Lemma outer_body_spec sigmas eps T label sigma st reads xs w :
  nth_error sigmas label = Some sigma ->
  matches st reads xs w ->
  exists xs' w',
    outer_body draws score_nn sigmas eps T (label, sigma) xs w = Ok (xs', w') /\
    matches (fold_left (spec_iteration draws score_nn eps (last sigmas s_zero))
               (repeat sigma T) st)
            (reads ++ level_reads (size0 (fst xs)) label) xs' w' /\
    shape (fst xs') = shape (fst xs).
Proof.
  intros Hn Hm. run_outer_body. rewrite take_all_repeat with (sigma := sigma) by exact Hn.
  destruct sigmas as [|s0 rest]; [now destruct label|].
  rewrite <- (last_cons s0 rest s_zero).
  set (w1 := World _ _).
  assert (Hm1 : matches st (reads ++ level_reads (size0 (fst xs)) label) xs w1).
  { destruct Hm as (A & B & C & D & E). repeat split; auto; simpl.
    - rewrite !iteration_events_app. simpl. now rewrite !app_nil_r.
    - rewrite !schedule_reads_app. simpl. rewrite <- app_assoc. now subst reads. }
  destruct (inner_loop_spec eps (last (s0 :: rest) s_zero) sigma (range T) Hm1)
    as (xs' & w' & E & M' & S').
  exists xs', w'. unfold range in *. rewrite length_seq in M'.
  split; [exact E|split; [exact M'|exact S']].
Qed.

Lemma outer_loop_spec sigmas eps T (sigs : list F) :
  forall k st reads xs w,
    (forall i sigma, nth_error sigs i = Some sigma ->
                     nth_error sigmas (k + i) = Some sigma) ->
    matches st reads xs w ->
    exists xs' w',
      for_in (combine (seq k (length sigs)) sigs)
        (outer_body draws score_nn sigmas eps T) xs w = Ok (xs', w') /\
      matches (fold_left (spec_iteration draws score_nn eps (last sigmas s_zero))
                 (spec_schedule sigs T) st)
              (reads ++ flat_map (level_reads (size0 (fst xs)))
                                 (seq k (length sigs))) xs' w' /\
      shape (fst xs') = shape (fst xs).
Proof.
  induction sigs as [|sigma sigs IH]; intros k st reads xs w Hs Hm.
  - exists xs, w. simpl. rewrite app_nil_r. auto.
  - assert (Hn : nth_error sigmas k = Some sigma).
    { specialize (Hs 0 sigma eq_refl). now rewrite Nat.add_0_r in Hs. }
    destruct (outer_body_spec sigmas eps T k Hn Hm)
      as (xs1 & w1 & E1 & M1 & S1).
    assert (Hs' : forall i s, nth_error sigs i = Some s ->
                              nth_error sigmas (S k + i) = Some s).
    { intros i s Hi. specialize (Hs (S i) s Hi).
      now replace (S k + i) with (k + S i) by lia. }
    destruct (IH (S k) _ _ _ _ Hs' M1) as (xs2 & w2 & E2 & M2 & S2).
    exists xs2, w2. cbn [length seq combine for_in]. unfold bind at 1.
    rewrite E1. unfold spec_schedule in *. cbn [flat_map].
    rewrite fold_left_app.
    split; [exact E2|]. split; [|now rewrite S2].
    unfold size0 in *. rewrite S1, <- app_assoc in M2. exact M2.
Qed.

(** The program run from [start] ends where the specification's run
    ends, with the same sample, the same snapshots and the same actions. *)
Lemma anneal_loop_spec x sigmas eps T :
  let st := spec_sampler draws score_nn x sigmas eps T in
  exists lg,
    anneal_loop draws score_nn x sigmas eps T start
    = Ok ((cur_x st, snapshots st), World (cur_pos st) lg) /\
    iteration_events lg = actions st /\
    schedule_reads lg = flat_map (level_reads (size0 x)) (seq 0 (length sigmas)) /\
    shape (cur_x st) = shape x.
Proof.
  intros st.
  destruct (@outer_loop_spec sigmas eps T sigmas 0 (Progress x 0 [] []) []
              (x, []) start) as (xs' & w' & E & M' & S'); auto.
  - unfold matches. simpl. auto.
  - destruct M' as (A & B & C & D & R). fold st in A, B, C, D.
    exists (log w'). unfold anneal_loop, enumerate. rewrite E.
    destruct xs' as [x' s'], w' as [p' l']. simpl in *. subst.
    repeat split; auto.
Qed.

End Refinement.

(** ** Loops *)

Section LoopFacts.
Variables W A S : Type.

Lemma for_in_preserves (I : S -> W -> Prop) (body : A -> S -> M W S) :
  (forall a s w s' w', I s w -> body a s w = Ok (s', w') -> I s' w') ->
  forall l s w s' w', I s w -> for_in l body s w = Ok (s', w') -> I s' w'.
Proof.
  intros Hb. induction l as [|a l IH]; intros s w s' w' Hi Hr.
  - inversion Hr. now subst.
  - simpl in Hr. unfold bind in Hr.
    destruct (body a s w) as [[s1 w1]|e] eqn:E; [|discriminate].
    eauto.
Qed.

(** A loop whose bodies agree on every state they are run from. *)
Lemma for_in_transfer (Q : W -> Prop) (b1 b2 : A -> S -> M W S) :
  (forall a s w s' w', b1 a s w = Ok (s', w') -> Q w' -> Q w) ->
  (forall a s w s' w', b1 a s w = Ok (s', w') -> Q w' -> b2 a s w = Ok (s', w')) ->
  forall l s w s' w',
    for_in l b1 s w = Ok (s', w') -> Q w' ->
    for_in l b2 s w = Ok (s', w') /\ Q w.
Proof.
  intros Hback Hsame. induction l as [|a l IH]; intros s w s' w' Hr Hq.
  - inversion Hr. subst. split; [reflexivity|assumption].
  - simpl in *. unfold bind in *.
    destruct (b1 a s w) as [[s1 w1]|e] eqn:E; [|discriminate].
    destruct (IH _ _ _ _ Hr Hq) as [Hrest Hq1].
    rewrite (Hsame _ _ _ _ _ E Hq1). split; [exact Hrest|]. eauto.
Qed.

End LoopFacts.

Section General.
Context {F : Type} {SF : Scalar F}.
Variable score_nn : tensor F -> tensor F -> tensor F.

Lemma score_inputs_app (l1 l2 : list (@event F)) :
  score_inputs (l1 ++ l2) = score_inputs l1 ++ score_inputs l2.
Proof.
  induction l1 as [|e l1 IH]; simpl; [reflexivity|].
  destruct e; simpl; now rewrite ?IH.
Qed.


(** What a successful inner iteration did. *)
Lemma inner_body_ok draws used step t x samples w xs' w' :
  inner_body draws score_nn used step t (x, samples) w = Ok (xs', w') ->
  exists x',
    langevin_update x step (score_nn x used)
      (mul_scalar (Tensor (shape x) (map draws (seq (rng_pos w) (numel (shape x)))))
                  (s_sqrt (s_mul s_two step))) = Ok x' /\
    xs' = (x', samples ++ [clamp x s_neg_one s_one]) /\
    w' = World (rng_pos w + numel (shape x))
               (log w ++ [EvAppend (clamp x s_neg_one s_one); EvRandn (shape x);
                          EvScore x used]).
Proof.
  run_inner_body. destruct (langevin_update _ _ _ _) as [x'|e]; [|discriminate].
  intros H. inversion H. subst. exists x'. repeat split.
  now rewrite <- !app_assoc.
Qed.


(** What a successful pass through one noise level did before its inner
    loop. *)
Lemma outer_body_ok draws sigmas eps T label sigma xs w xs' w' :
  outer_body draws score_nn sigmas eps T (label, sigma) xs w = Ok (xs', w') ->
  exists g,
    take_all sigmas (repeat label (size0 (fst xs))) = Ok g /\
    sigmas <> [] /\
    for_in (range T)
      (inner_body draws score_nn (view_col g)
         (step_size eps sigma (last sigmas s_zero))) xs
      (World (rng_pos w)
         (log w ++ [EvGather (repeat label (size0 (fst xs))); EvLast]))
    = Ok (xs', w').
Proof.
  run_outer_body.
  destruct (take_all _ _) as [g|e]; [|discriminate].
  destruct sigmas as [|s0 rest]; [discriminate|].
  intros H. exists g. split; [reflexivity|]. split; [discriminate|].
  rewrite (last_cons s0 rest s_zero). cbn [rng_pos log] in H.
  rewrite <- app_assoc in H. exact H.
Qed.

Lemma inner_loop_clamped draws used step ts xs w xs' w' :
  Forall clamped (snd xs) ->
  for_in ts (inner_body draws score_nn used step) xs w = Ok (xs', w') ->
  Forall clamped (snd xs').
Proof.
  intros H0 Hr.
  apply (for_in_preserves (fun (s : tensor F * list (tensor F)) (_ : @world F) =>
                             Forall clamped (snd s))
           (inner_body draws score_nn used step)) with (2 := H0) (3 := Hr).
  intros t [x samples] w0 s' w0' Hi Hb.
  apply inner_body_ok in Hb. destruct Hb as (x' & _ & -> & _). simpl in *.
  apply Forall_app. split; [exact Hi|]. constructor; [|constructor].
  now exists x.
Qed.

Lemma anneal_loop_clamped draws x sigmas eps T w xs' w' :
  anneal_loop draws score_nn x sigmas eps T w = Ok (xs', w') ->
  Forall clamped (snd xs').
Proof.
  intros Hr. unfold anneal_loop in Hr.
  apply (for_in_preserves (fun (s : tensor F * list (tensor F)) (_ : @world F) =>
                             Forall clamped (snd s))
           (outer_body draws score_nn sigmas eps T))
    with (3 := Hr); [|constructor].
  intros [label sigma] xs w0 s' w0' Hi Hb.
  apply outer_body_ok in Hb. destruct Hb as (g & _ & _ & Hin).
  eapply inner_loop_clamped; eauto.
Qed.

(** ** Dependence on the random stream *)

Section TwoStreams.
Variables d1 d2 : nat -> F.
Variable n : nat.
Hypothesis agree : forall k, k < n -> d1 k = d2 k.

Lemma inner_body_transfer used step t xs w xs' w' :
  inner_body d1 score_nn used step t xs w = Ok (xs', w') ->
  rng_pos w' <= n ->
  inner_body d2 score_nn used step t xs w = Ok (xs', w').
Proof.
  destruct xs as [x samples]. intros Hb Hn.
  apply inner_body_ok in Hb. destruct Hb as (x' & Hu & -> & ->).
  simpl in Hn.
  run_inner_body.
  replace (map d2 (seq (rng_pos w) (numel (shape x))))
    with (map d1 (seq (rng_pos w) (numel (shape x)))).
  - rewrite Hu. now rewrite <- !app_assoc.
  - apply map_ext_in. intros k Hk. apply in_seq in Hk. apply agree. lia.
Qed.

Lemma inner_body_back used step t xs w xs' w' :
  inner_body d1 score_nn used step t xs w = Ok (xs', w') ->
  rng_pos w' <= n -> rng_pos w <= n.
Proof.
  destruct xs as [x samples]. intros Hb Hn.
  apply inner_body_ok in Hb. destruct Hb as (x' & Hu & -> & ->).
  simpl in Hn. lia.
Qed.

Lemma outer_body_transfer sigmas eps T ls xs w xs' w' :
  outer_body d1 score_nn sigmas eps T ls xs w = Ok (xs', w') ->
  rng_pos w' <= n ->
  outer_body d2 score_nn sigmas eps T ls xs w = Ok (xs', w') /\ rng_pos w <= n.
Proof.
  destruct ls as [label sigma]. intros Hb Hn.
  apply outer_body_ok in Hb. destruct Hb as (g & Hg & Hne & Hin).
  assert (Hin2 : for_in (range T)
                    (inner_body d2 score_nn (view_col g)
                       (step_size eps sigma (last sigmas s_zero))) xs
                    (World (rng_pos w)
                       (log w ++ [EvGather (repeat label (size0 (fst xs))); EvLast]))
                  = Ok (xs', w') /\ rng_pos w <= n).
  { apply (for_in_transfer (fun w : @world F => rng_pos w <= n)
             (inner_body d1 score_nn (view_col g)
                (step_size eps sigma (last sigmas s_zero)))
             (inner_body d2 score_nn (view_col g)
                (step_size eps sigma (last sigmas s_zero))))
      with (3 := Hin) (4 := Hn).
    - intros t s w0 s' w0' Hb Hq. eapply inner_body_back; eauto.
    - intros t s w0 s' w0' Hb Hq. eapply inner_body_transfer; eauto. }
  destruct Hin2 as [Hin2 Hq].
  split; [|exact Hq].
  run_outer_body.
  rewrite Hg. destruct sigmas as [|s0 rest]; [congruence|].
  rewrite <- (last_cons s0 rest s_zero). cbn [rng_pos log].
  rewrite <- app_assoc. exact Hin2.
Qed.

Lemma anneal_loop_transfer x sigmas eps T w xs' w' :
  anneal_loop d1 score_nn x sigmas eps T w = Ok (xs', w') ->
  rng_pos w' <= n ->
  anneal_loop d2 score_nn x sigmas eps T w = Ok (xs', w').
Proof.
  intros Hr Hn. unfold anneal_loop in *.
  apply (for_in_transfer (fun w : @world F => rng_pos w <= n)
           (outer_body d1 score_nn sigmas eps T)
           (outer_body d2 score_nn sigmas eps T)) with (3 := Hr) (4 := Hn).
  - intros a s w0 s' w0' Hb Hq. eapply outer_body_transfer; eauto.
  - intros a s w0 s' w0' Hb Hq. eapply outer_body_transfer; eauto.
Qed.

End TwoStreams.

(** ** A schedule walked with no inner step *)



(** ** Snapshots and the inputs of the score network *)

(** In every run that returns, whatever the score network, the list of
    samples is the clamp of the tensors passed to the score network, call
    by call. *)
Lemma inner_loop_records draws used step ts xs w xs' w' :
  snd xs = map clamp_unit (score_inputs (log w)) ->
  for_in ts (inner_body draws score_nn used step) xs w = Ok (xs', w') ->
  snd xs' = map clamp_unit (score_inputs (log w')).
Proof.
  intros H0 Hr.
  apply (for_in_preserves
           (fun (s : tensor F * list (tensor F)) (w0 : @world F) =>
              snd s = map clamp_unit (score_inputs (log w0)))
           (inner_body draws score_nn used step)) with (2 := H0) (3 := Hr).
  intros t [x samples] w0 s' w0' Hi Hb.
  apply inner_body_ok in Hb. destruct Hb as (x' & _ & -> & ->). simpl in *.
  rewrite score_inputs_app, map_app, Hi. reflexivity.
Qed.

Lemma anneal_loop_records draws x sigmas eps T xs' w' :
  anneal_loop draws score_nn x sigmas eps T start = Ok (xs', w') ->
  snd xs' = map clamp_unit (score_inputs (log w')).
Proof.
  intros Hr. unfold anneal_loop in Hr.
  apply (for_in_preserves
           (fun (s : tensor F * list (tensor F)) (w0 : @world F) =>
              snd s = map clamp_unit (score_inputs (log w0)))
           (outer_body draws score_nn sigmas eps T))
    with (3 := Hr); [|reflexivity].
  intros [label sigma] xs w0 s' w0' Hi Hb.
  apply outer_body_ok in Hb. destruct Hb as (g & _ & _ & Hin).
  eapply inner_loop_records; [|exact Hin]. simpl.
  rewrite score_inputs_app. simpl. now rewrite app_nil_r.
Qed.

End General.

(** ** The specification's run *)

Section SpecFacts.
Context {F : Type} {SF : Scalar F}.
Variable draws : nat -> F.
Variable score_nn : tensor F -> tensor F -> tensor F.









Hypothesis score_shape : shape_preserving score_nn.


End SpecFacts.

(** ** The sampler: schedule, snapshots, degenerate runs, random stream *)

Section SamplerTheorems.
Context {F : Type} {SF : Scalar F}.

Lemma sample_of_loop draws score_nn (x : tensor F) sigmas eps T w x' samples w' :
  anneal_loop draws score_nn x sigmas eps T w = Ok ((x', samples), w') ->
  sample_anneal_langevin draws score_nn x sigmas eps T w = Ok (samples, w').
Proof.
  intros H. unfold sample_anneal_langevin, bind. now rewrite H.
Qed.

Lemma loop_of_sample draws score_nn (x : tensor F) sigmas eps T w samples w' :
  sample_anneal_langevin draws score_nn x sigmas eps T w = Ok (samples, w') ->
  exists x', anneal_loop draws score_nn x sigmas eps T w = Ok ((x', samples), w').
Proof.
  unfold sample_anneal_langevin, bind, ret.
  destruct (anneal_loop _ _ _ _ _ _ _) as [[[x' s'] w1]|e]; [|discriminate].
  simpl. intros H. inversion H. subst. now exists x'.
Qed.





(** C8.  The returned list depends on the random source only through the
    values the call consumes: if a call returns [samples] after consuming
    [rng_pos w] values of one stream, the same call on any stream with the
    same first [rng_pos w] values returns [samples] too, in the same
    world. *)
Theorem sampler_determined_by_draws d1 d2 score_nn (x : tensor F) sigmas eps T
  samples w :
  sample_anneal_langevin d1 score_nn x sigmas eps T start = Ok (samples, w) ->
  (forall k, k < rng_pos w -> d1 k = d2 k) ->
  sample_anneal_langevin d2 score_nn x sigmas eps T start = Ok (samples, w).
Proof.
  intros Hr Hd. apply loop_of_sample in Hr. destruct Hr as [x' Hr].
  apply sample_of_loop with (x' := x').
  eapply anneal_loop_transfer; eauto.
Qed.

End SamplerTheorems.

(** *** The theorems above on a run of two levels and two steps *)

Section SamplerWitnesses.

Local Open Scope float_scope.


Lemma zero_score_shape : shape_preserving zero_score.
Proof. intros x used. reflexivity. Qed.




Lemma sampler_determined_by_draws_witness :
  exists w,
    sample_anneal_langevin late_draws neg_score demo_x demo_sigmas 0.5 2 start
    = Ok ([Tensor (Shape 1 1 1 2) [0.5; 1]; Tensor (Shape 1 1 1 2) [0; -1];
           Tensor (Shape 1 1 1 2) [0.5; 1]; Tensor (Shape 1 1 1 2) [0.5; 1]], w).
Proof.
  eexists.
  apply (@sampler_determined_by_draws float float64 quarter_draws late_draws).
  - vm_compute. reflexivity.
  - intros k Hk. vm_compute in Hk. unfold quarter_draws, late_draws.
    destruct (Nat.ltb_spec k 8); [reflexivity|lia].
Defined.

End SamplerWitnesses.

(** ** Binary64 samples: the range of a snapshot *)

Section FloatRange.

Local Open Scope float_scope.

Lemma SFcompare_swap (a b : spec_float) :
  SFcompare b a = option_map CompOpp (SFcompare a b).
Proof.
  destruct a as [sa|sa| |sa ma ea], b as [sb|sb| |sb mb eb]; simpl;
    try reflexivity;
    try (destruct sa; reflexivity); try (destruct sb; reflexivity);
    try (destruct sa, sb; reflexivity).
  destruct sa, sb; simpl; try reflexivity;
    rewrite (Z.compare_antisym eb ea);
    destruct (Z.compare eb ea) eqn:E; simpl; try reflexivity;
    rewrite (Pos.compare_cont_antisym ma mb Eq); simpl;
    now rewrite ?CompOpp_involutive.
Qed.

Lemma SFcompare_none (a b : spec_float) :
  SFcompare a b = None -> a = S754_nan \/ b = S754_nan.
Proof.
  destruct a as [sa|sa| |sa ma ea], b as [sb|sb| |sb mb eb]; simpl;
    intros H; try discriminate; auto.
Qed.

Lemma is_nan_of_spec (x : float) : Prim2SF x = S754_nan -> is_nan x = true.
Proof.
  intros H. unfold is_nan. now rewrite FloatAxioms.eqb_spec, H.
Qed.

(** The comparison [<] fails only on a NaN or when [>=] holds. *)
Lemma ltb_false_cases (x y : float) :
  (x <? y) = false ->
  is_nan x = true \/ is_nan y = true \/ (y <=? x) = true.
Proof.
  rewrite ltb_spec, leb_spec. unfold SFltb, SFleb.
  rewrite (SFcompare_swap (Prim2SF x) (Prim2SF y)).
  destruct (SFcompare (Prim2SF x) (Prim2SF y)) as [[| |]|] eqn:E; simpl;
    intros H; try discriminate; auto.
  destruct (SFcompare_none _ _ E) as [N|N]; auto using is_nan_of_spec.
Qed.

Lemma clamp_scalar_range (v : float) :
  is_nan (clamp_scalar (-1) 1 v) = true \/
  in_unit_interval (clamp_scalar (-1) 1 v) = true.
Proof.
  unfold clamp_scalar. simpl.
  destruct (v <? -1) eqn:Lo; [right; reflexivity|].
  destruct (1 <? v) eqn:Hi; [right; reflexivity|].
  destruct (ltb_false_cases Lo) as [N|[N|L]]; [now left|discriminate|].
  destruct (ltb_false_cases Hi) as [N|[N|H]]; [discriminate|now left|].
  right. unfold in_unit_interval. now rewrite L, H.
Qed.

(** C3, as the code has it.  For every call that returns and every
    snapshot in the returned list, every element of the snapshot is a NaN
    or lies in the closed interval [-1, 1]: the clamp bounds every number
    and returns a NaN as it is. *)
Theorem snapshots_nan_or_in_range draws score_nn (x : tensor float)
  sigmas eps T samples w :
  sample_anneal_langevin draws score_nn x sigmas eps T start = Ok (samples, w) ->
  Forall (fun s =>
            Forall (fun v => is_nan v = true \/ in_unit_interval v = true)
                   (data s)) samples.
Proof.
  intros Hr. apply loop_of_sample in Hr. destruct Hr as [x' Hr].
  apply anneal_loop_clamped in Hr. simpl in Hr.
  eapply Forall_impl; [|exact Hr].
  intros s [y ->]. unfold clamp_unit, clamp, tmap. simpl.
  apply Forall_map, Forall_forall. intros v _. apply clamp_scalar_range.
Qed.

Lemma snapshots_nan_or_in_range_witness :
  Forall (fun s =>
            Forall (fun v => is_nan v = true \/ in_unit_interval v = true)
                   (data s))
    [Tensor (Shape 1 1 1 1) [1]; Tensor (Shape 1 1 1 1) [-1];
     Tensor (Shape 1 1 1 1) [nan]].
Proof.
  eapply (@snapshots_nan_or_in_range quarter_draws neg_score huge_x [1] 4 3).
  vm_compute. reflexivity.
Defined.

(** C3, as the specification states it, fails.  From the finite sample
    2^1023, with the score [-x], [eps = 4] and one noise level, the first
    update overflows to minus infinity and the second adds plus infinity
    to it: the third snapshot holds a NaN, which is not in [-1, 1]. *)
Lemma snapshot_outside_unit_interval :
  ~ (forall draws score_nn (x : tensor float) sigmas eps T samples w,
        sample_anneal_langevin draws score_nn x sigmas eps T start
        = Ok (samples, w) ->
        all_in_unit_interval samples).
Proof.
  intros H.
  pose proof (H quarter_draws neg_score huge_x [1] 4 3%nat) as H'.
  vm_compute in H'. specialize (H' _ _ eq_refl).
  inversion H' as [|s1 l1 _ H1]; subst.
  inversion H1 as [|s2 l2 _ H2]; subst.
  inversion H2 as [|s3 l3 H3 _]; subst.
  inversion H3 as [|v l V _]; subst.
  discriminate V.
Qed.

End FloatRange.

(** ** Binary64 samples: the all-zero run *)

Section ZeroRun.

Local Open Scope float_scope.

Lemma clamp_unit_zeros (s : shape4) : clamp_unit (zeros s) = zeros s.
Proof.
  unfold clamp_unit, clamp, tmap, zeros. simpl. f_equal.
  now rewrite map_repeat.
Qed.

(** C9.  With a score network that returns zeros, an all-zero input of
    any shape, a schedule of one level, [T = 1] and a random source that
    returns zeros, the call returns exactly one snapshot, the clamp of the
    input, which is the zero tensor. *)
Theorem zero_run_returns_zero_snapshot (s : shape4) (sigma eps : float) :
  returned (sample_anneal_langevin zero_draws zero_score (zeros s) [sigma] eps 1
              start)
  = Ok [clamp_unit (zeros s)] /\
  clamp_unit (zeros s) = zeros s.
Proof.
  split; [|apply clamp_unit_zeros].
  destruct (anneal_loop_spec zero_draws zero_score_shape (zeros s) [sigma] eps 1)
    as (lg & E & _).
  unfold sample_anneal_langevin, bind. rewrite E. reflexivity.
Qed.

End ZeroRun.

(** ** The step size *)

Section StepSize.

(** C4, over exact arithmetic.  For a schedule with a positive last
    element, a non-zero [eps] and a non-zero [sigma_j], the step sizes of
    the levels [i] and [j] are in the ratio [(sigma_i / sigma_j)^2], and
    the step size of a level is [eps * (sigma / sigmas[-1])^2]. *)
Theorem step_size_ratio_exact (eps : R) (sigmas : list R) (i j : nat)
  (si sj : R) :
  nth_error sigmas i = Some si ->
  nth_error sigmas j = Some sj ->
  (0 < last sigmas 0)%R ->
  eps <> 0%R ->
  sj <> 0%R ->
  ratio_law eps sigmas si sj /\
  step_size eps si (last sigmas 0%R) = (eps * (si / last sigmas 0) ^ 2)%R.
Proof.
  intros _ _ Hl He Hj. unfold ratio_law, step_size, sq. simpl.
  split; field; repeat split; auto; lra.
Qed.

Lemma step_size_ratio_exact_witness :
  ratio_law 1%R [2%R; 1%R] 2%R 1%R /\
  step_size 1%R 2%R (last [2%R; 1%R] 0%R) = (1 * (2 / last [2; 1] 0) ^ 2)%R.
Proof.
  apply (@step_size_ratio_exact 1%R [2%R; 1%R] 0 1 2%R 1%R);
    try reflexivity; simpl; lra.
Defined.

Local Set Warnings "-inexact-float".
Local Open Scope float_scope.

(** C4, as the specification states it, fails in binary64.  With the
    default [eps] and the decreasing schedule [1, 0.6, 0.01], the step
    sizes of the first two levels are 0.062 and 0.02232; their quotient
    is 2.7777777777777777 while [(1 / 0.6)^2] is 2.7777777777777781. *)
Lemma step_size_ratio_not_exact :
  nth_error decreasing_sigmas 0 = Some 1 /\
  nth_error decreasing_sigmas 1 = Some 0.6 /\
  (0 <? last decreasing_sigmas 0) = true /\
  ~ ratio_law default_eps decreasing_sigmas 1 0.6.
Proof.
  repeat split. intros H. unfold ratio_law in H.
  apply (f_equal (fun v => v =? sq (s_div 1 0.6))) in H.
  vm_compute in H. discriminate H.
Qed.

End StepSize.

(** ** The object store *)

Section StoreFacts.
Context {F : Type} {SF : Scalar F}.
Variable draws : nat -> F.
Variable score_nn : tensor F -> tensor F -> tensor F.

Lemma heap_extends_refl (h : list (tensor F)) : heap_extends h h.
Proof. exists []. now rewrite app_nil_r. Qed.

Lemma heap_extends_trans (h1 h2 h3 : list (tensor F)) :
  heap_extends h1 h2 -> heap_extends h2 h3 -> heap_extends h1 h3.
Proof.
  intros [e1 ->] [e2 ->]. exists (e1 ++ e2). now rewrite app_assoc.
Qed.

Lemma heap_extends_lookup (h h' : list (tensor F)) (r : ref) (t : tensor F) :
  heap_extends h h' -> nth_error h r = Some t -> nth_error h' r = Some t.
Proof.
  intros [e ->] H. rewrite nth_error_app1; [exact H|].
  apply nth_error_Some. congruence.
Qed.

Lemma heap_extends_deref (h h' : list (tensor F)) (rs : list ref)
  (ts : list (tensor F)) :
  heap_extends h h' -> deref_all h rs = map Some ts ->
  deref_all h' rs = map Some ts.
Proof.
  intros He. revert ts. induction rs as [|r rs IH]; intros [|t ts] H;
    simpl in *; try discriminate; [reflexivity|].
  inversion H as [[H1 H2]]. rewrite H1, H2.
  f_equal; [eapply heap_extends_lookup; eauto|now apply IH].
Qed.

Lemma ensures_ret {A} (a : A) (pw : @pyworld F) (Q : A -> @pyworld F -> Prop) :
  Q a pw -> ensures (ret a) pw Q.
Proof. intros H. now exists a, pw. Qed.

Lemma ensures_bind {A B} (m : M (@pyworld F) A) (k : A -> M (@pyworld F) B) pw
  (Q1 : A -> @pyworld F -> Prop) (Q : B -> @pyworld F -> Prop) :
  ensures m pw Q1 ->
  (forall a pw', Q1 a pw' -> ensures (k a) pw' Q) ->
  ensures (bind m k) pw Q.
Proof.
  intros (a & pw1 & E & H1) Hk. destruct (Hk _ _ H1) as (b & pw2 & E2 & H2).
  exists b, pw2. unfold bind. now rewrite E.
Qed.

Lemma ensures_load (r : ref) (t : tensor F) (pw : @pyworld F) :
  nth_error (heap pw) r = Some t ->
  ensures (load r) pw (fun a pw' => a = t /\ pw' = pw).
Proof. intros H. exists t, pw. unfold load. now rewrite H. Qed.

Lemma ensures_alloc (t : tensor F) (pw : @pyworld F) :
  ensures (alloc t) pw
    (fun r pw' => nth_error (heap pw') r = Some t /\
                  heap_extends (heap pw) (heap pw') /\
                  outside pw' = outside pw).
Proof.
  eexists _, _. split; [reflexivity|]. simpl. repeat split.
  - rewrite nth_error_app2 by lia. now rewrite Nat.sub_diag.
  - now exists [t].
Qed.

Lemma ensures_effect {A} (m : M (@world F) A) (a : A) (w' : @world F)
  (pw : @pyworld F) :
  m (outside pw) = Ok (a, w') ->
  ensures (effect m) pw
    (fun a' pw' => a' = a /\ heap pw' = heap pw /\ outside pw' = w').
Proof.
  intros H. eexists _, _. unfold effect. rewrite H. split; [reflexivity|].
  simpl. auto.
Qed.

(** An operation that reads one object and allocates its result. *)
Lemma ensures_unary (f : tensor F -> tensor F) (x : ref) (t : tensor F)
  (pw : @pyworld F) :
  nth_error (heap pw) x = Some t ->
  ensures (t0 <- load x ;; alloc (f t0)) pw
    (fun r pw' => nth_error (heap pw') r = Some (f t) /\
                  heap_extends (heap pw) (heap pw') /\
                  outside pw' = outside pw).
Proof.
  intros H. eapply ensures_bind; [apply ensures_load; exact H|].
  intros a pw' [-> ->]. apply ensures_alloc.
Qed.

Lemma ensures_ref_add (a b : ref) (ta tb t : tensor F) (pw : @pyworld F) :
  nth_error (heap pw) a = Some ta ->
  nth_error (heap pw) b = Some tb ->
  tensor_add ta tb = Ok t ->
  ensures (ref_add a b) pw
    (fun r pw' => nth_error (heap pw') r = Some t /\
                  heap_extends (heap pw) (heap pw') /\
                  outside pw' = outside pw).
Proof.
  intros Ha Hb Ht. unfold ref_add.
  eapply ensures_bind; [apply ensures_load; exact Ha|]. intros ? ? [-> ->].
  eapply ensures_bind; [apply ensures_load; exact Hb|]. intros ? ? [-> ->].
  eapply ensures_bind with (Q1 := fun r pw' => r = t /\ pw' = pw).
  - exists t, pw. unfold lift. now rewrite Ht.
  - intros ? ? [-> ->]. apply ensures_alloc.
Qed.

Lemma ensures_ref_append (samples : list ref) (r : ref) (t : tensor F)
  (pw : @pyworld F) :
  nth_error (heap pw) r = Some t ->
  ensures (ref_append samples r) pw
    (fun s' pw' => s' = samples ++ [r] /\ heap pw' = heap pw /\
                   outside pw' = World (rng_pos (outside pw))
                                   (log (outside pw) ++ [EvAppend t])).
Proof.
  intros H. unfold ref_append.
  eapply ensures_bind; [apply ensures_load; exact H|]. intros ? ? [-> ->].
  eapply ensures_bind; [apply ensures_effect; reflexivity|].
  intros ? pw' (_ & Hh & Ho). apply ensures_ret. auto.
Qed.

Lemma ensures_ref_randn_like (x : ref) (t : tensor F) (pw : @pyworld F) :
  nth_error (heap pw) x = Some t ->
  ensures (ref_randn_like draws x) pw
    (fun r pw' =>
       nth_error (heap pw') r
       = Some (Tensor (shape t)
                 (map draws (seq (rng_pos (outside pw)) (numel (shape t))))) /\
       heap_extends (heap pw) (heap pw') /\
       outside pw' = World (rng_pos (outside pw) + numel (shape t))
                       (log (outside pw) ++ [EvRandn (shape t)])).
Proof.
  intros H. unfold ref_randn_like.
  eapply ensures_bind; [apply ensures_load; exact H|]. intros ? ? [-> ->].
  eapply ensures_bind; [apply ensures_effect; reflexivity|].
  intros ? pw1 (-> & Hh & Ho).
  destruct (ensures_alloc
              (Tensor (shape t)
                 (map draws (seq (rng_pos (outside pw)) (numel (shape t))))) pw1)
    as (r & pw2 & E & L & X & O).
  exists r, pw2. split; [exact E|]. rewrite Hh in X. rewrite O, Ho. auto.
Qed.

Lemma ensures_ref_call_score (x u : ref) (tx tu : tensor F) (pw : @pyworld F) :
  nth_error (heap pw) x = Some tx ->
  nth_error (heap pw) u = Some tu ->
  ensures (ref_call_score score_nn x u) pw
    (fun r pw' =>
       nth_error (heap pw') r = Some (score_nn tx tu) /\
       heap_extends (heap pw) (heap pw') /\
       outside pw' = World (rng_pos (outside pw))
                       (log (outside pw) ++ [EvScore tx tu])).
Proof.
  intros Hx Hu. unfold ref_call_score.
  eapply ensures_bind; [apply ensures_load; exact Hx|]. intros ? ? [-> ->].
  eapply ensures_bind; [apply ensures_load; exact Hu|]. intros ? ? [-> ->].
  eapply ensures_bind; [apply ensures_effect; reflexivity|].
  intros ? pw1 (-> & Hh & Ho).
  destruct (ensures_alloc (score_nn tx tu) pw1) as (r & pw2 & E & L & X & O).
  exists r, pw2. split; [exact E|]. rewrite Hh in X. rewrite O, Ho. auto.
Qed.

Lemma langevin_update_ok (x : tensor F) (step : F) (sc z x' : tensor F) :
  langevin_update x step sc z = Ok x' ->
  exists a, tensor_add x (scalar_mul step sc) = Ok a /\ tensor_add a z = Ok x'.
Proof.
  unfold langevin_update.
  destruct (tensor_add x (scalar_mul step sc)) as [a|e]; [|discriminate].
  simpl. intros H. now exists a.
Qed.

(** One inner iteration on references does what it does on values, and
    only adds objects to the store. *)
Lemma ref_inner_body_sim (used_ref : ref) (used : tensor F) (step : F) (t : nat)
  (rs : ref * list ref) (xs xs' : tensor F * list (tensor F)) (w' : @world F)
  (pw : @pyworld F) :
  denotes (heap pw) rs xs ->
  nth_error (heap pw) used_ref = Some used ->
  inner_body draws score_nn used step t xs (outside pw) = Ok (xs', w') ->
  ensures (ref_inner_body draws score_nn used_ref step t rs) pw
    (fun rs' pw' => denotes (heap pw') rs' xs' /\
                    heap_extends (heap pw) (heap pw') /\
                    outside pw' = w').
Proof.
  destruct rs as [rx rsamples], xs as [x samples]. intros [Dx Ds] Hu Hb.
  simpl in Dx, Ds.
  apply inner_body_ok in Hb. destruct Hb as (x' & Hup & -> & ->).
  apply langevin_update_ok in Hup. destruct Hup as (a & Ha & Hx').
  unfold ref_inner_body.
  (* c = torch.clamp(x, -1, 1) *)
  eapply ensures_bind; [apply ensures_unary; exact Dx|].
  intros c pw1 (Lc & X1 & O1).
  eapply ensures_bind with (Q1 := fun a p => a = c /\ p = pw1);
    [apply ensures_ret; auto|]. intros ? ? [-> ->].
  (* samples.append(c) *)
  eapply ensures_bind; [apply ensures_ref_append; exact Lc|].
  intros s' pw2 (-> & H2 & O2).
  assert (Dx2 : nth_error (heap pw2) rx = Some x)
    by (rewrite H2; eapply heap_extends_lookup; eauto).
  (* r = torch.randn_like(x) *)
  eapply ensures_bind; [apply ensures_ref_randn_like; exact Dx2|].
  intros r pw3 (Lr & X3 & O3).
  assert (P2 : rng_pos (outside pw2) = rng_pos (outside pw))
    by (rewrite O2, O1; reflexivity).
  rewrite P2 in Lr, O3.
  (* z = r * sqrt(2 * step) *)
  eapply ensures_bind; [apply ensures_unary; exact Lr|].
  intros z pw4 (Lz & X4 & O4).
  assert (X24 : heap_extends (heap pw2) (heap pw4))
    by (eapply heap_extends_trans; eauto).
  assert (X14 : heap_extends (heap pw1) (heap pw4)) by now rewrite <- H2.
  assert (X04 : heap_extends (heap pw) (heap pw4))
    by (eapply heap_extends_trans; eauto).
  (* score = score_nn(x, used_sigmas) *)
  eapply ensures_bind;
    [apply ensures_ref_call_score;
     [eapply heap_extends_lookup; [exact X04|exact Dx]
     |eapply heap_extends_lookup; [exact X04|exact Hu]]|].
  intros sc pw5 (Ls & X5 & O5).
  (* step * score *)
  eapply ensures_bind; [apply ensures_unary; exact Ls|].
  intros scaled pw6 (Lsc & X6 & O6).
  assert (X46 : heap_extends (heap pw4) (heap pw6))
    by (eapply heap_extends_trans; eauto).
  assert (X06 : heap_extends (heap pw) (heap pw6))
    by (eapply heap_extends_trans; eauto).
  (* x + step * score *)
  eapply ensures_bind;
    [eapply ensures_ref_add;
     [eapply heap_extends_lookup; [exact X06|exact Dx]|exact Lsc|exact Ha]|].
  intros ra pw7 (La & X7 & O7).
  (* ... + z *)
  eapply ensures_bind;
    [eapply ensures_ref_add;
     [exact La
     |eapply heap_extends_lookup; [|exact Lz];
      eapply heap_extends_trans; [exact X46|exact X7]
     |exact Hx']|].
  intros rx' pw8 (Lx' & X8 & O8).
  apply ensures_ret.
  assert (X08 : heap_extends (heap pw) (heap pw8)).
  { eapply heap_extends_trans; [exact X06|].
    eapply heap_extends_trans; [exact X7|exact X8]. }
  split; [|split].
  - split; simpl; [exact Lx'|].
    unfold deref_all. rewrite !map_app. f_equal.
    + eapply heap_extends_deref; [exact X08|exact Ds].
    + simpl. f_equal. eapply heap_extends_lookup; [|exact Lc].
      eapply heap_extends_trans; [exact X14|].
      eapply heap_extends_trans; [exact X46|].
      eapply heap_extends_trans; [exact X7|exact X8].
  - exact X08.
  - rewrite O8, O7, O6, O5, O4, O3, O2, O1. simpl.
    now rewrite <- !app_assoc.
Qed.

(** A loop on references follows the loop on values when its body does;
    [I] is what the body needs of the store, kept by every extension. *)
Lemma for_in_sim {A} (I : list (tensor F) -> Prop)
  (rbody : A -> ref * list ref -> M (@pyworld F) (ref * list ref))
  (vbody : A -> tensor F * list (tensor F) ->
           M (@world F) (tensor F * list (tensor F))) :
  (forall h h', heap_extends h h' -> I h -> I h') ->
  (forall a rs xs xs' w' pw,
      I (heap pw) -> denotes (heap pw) rs xs ->
      vbody a xs (outside pw) = Ok (xs', w') ->
      ensures (rbody a rs) pw
        (fun rs' pw' => denotes (heap pw') rs' xs' /\
                        heap_extends (heap pw) (heap pw') /\
                        outside pw' = w')) ->
  forall l rs xs xs' w' pw,
    I (heap pw) -> denotes (heap pw) rs xs ->
    for_in l vbody xs (outside pw) = Ok (xs', w') ->
    ensures (for_in l rbody rs) pw
      (fun rs' pw' => denotes (heap pw') rs' xs' /\
                      heap_extends (heap pw) (heap pw') /\
                      outside pw' = w').
Proof.
  intros Hmono Hbody. induction l as [|a l IH]; intros rs xs xs' w' pw Hi Hd Hr.
  - simpl in *. inversion Hr. subst. apply ensures_ret.
    split; [exact Hd|]. split; [apply heap_extends_refl|reflexivity].
  - simpl in *. unfold bind in Hr.
    destruct (vbody a xs (outside pw)) as [[xs1 w1]|e] eqn:E; [|discriminate].
    eapply ensures_bind; [eapply Hbody; eauto|].
    intros rs1 pw1 (D1 & X1 & O1). rewrite <- O1 in Hr.
    destruct (IH rs1 xs1 xs' w' pw1 (Hmono _ _ X1 Hi) D1 Hr)
      as (rs2 & pw2 & E2 & D2 & X2 & O2).
    exists rs2, pw2. split; [exact E2|]. split; [exact D2|].
    split; [eapply heap_extends_trans; eauto|exact O2].
Qed.

Lemma ref_outer_body_sim sigmas eps T (ls : nat * F)
  (rs : ref * list ref) (xs xs' : tensor F * list (tensor F)) (w' : @world F)
  (pw : @pyworld F) :
  denotes (heap pw) rs xs ->
  outer_body draws score_nn sigmas eps T ls xs (outside pw) = Ok (xs', w') ->
  ensures (ref_outer_body draws score_nn sigmas eps T ls rs) pw
    (fun rs' pw' => denotes (heap pw') rs' xs' /\
                    heap_extends (heap pw) (heap pw') /\
                    outside pw' = w').
Proof.
  destruct ls as [label sigma]. intros Hd Hb.
  apply outer_body_ok in Hb. destruct Hb as (g & Hg & Hne & Hin).
  unfold ref_outer_body, ref_size0.
  eapply ensures_bind.
  { eapply ensures_bind; [apply ensures_load; exact (proj1 Hd)|].
    intros ? ? [-> ->].
    apply ensures_ret with (Q := fun n p => n = size0 (fst xs) /\ p = pw). auto. }
  intros ? ? [-> ->].
  eapply ensures_bind.
  { apply ensures_effect with (a := g)
      (w' := World (rng_pos (outside pw))
               (log (outside pw) ++ [EvGather (repeat label (size0 (fst xs)))])).
    unfold gather, bind, emit, lift. simpl. now rewrite Hg. }
  intros ? pw1 (-> & H1 & O1).
  eapply ensures_bind; [apply ensures_alloc|].
  intros used pw2 (Lu & X2 & O2).
  eapply ensures_bind.
  { apply ensures_effect with (a := last sigmas s_zero)
      (w' := World (rng_pos (outside pw))
               (log (outside pw) ++ [EvGather (repeat label (size0 (fst xs)));
                                     EvLast])).
    rewrite O2, O1. unfold index_last, bind, emit, lift, ret. simpl.
    destruct sigmas as [|s0 rest]; [congruence|].
    now rewrite (last_cons s0 rest s_zero), <- app_assoc. }
  intros ? pw3 (-> & H3 & O3).
  rewrite H1 in X2. rewrite <- H3 in X2, Lu. rewrite <- O3 in Hin.
  assert (D3 : denotes (heap pw3) rs xs).
  { destruct Hd as [Dx Ds]. split.
    - eapply heap_extends_lookup; eauto.
    - eapply heap_extends_deref; eauto. }
  destruct (for_in_sim (fun h => nth_error h used = Some (view_col g))
              (ref_inner_body draws score_nn used
                 (step_size eps sigma (last sigmas s_zero)))
              (inner_body draws score_nn (view_col g)
                 (step_size eps sigma (last sigmas s_zero))))
    with (l := range T) (rs := rs) (xs := xs) (xs' := xs') (w' := w') (pw := pw3)
    as (rs' & pw' & E & D & X & O); auto.
  - intros h h' He Hl. eapply heap_extends_lookup; eauto.
  - intros t rs0 xs0 xs0' w0' pw0 Hl Hd0 Hv.
    eapply ref_inner_body_sim; eauto.
  - exists rs', pw'. split; [exact E|]. split; [exact D|].
    split; [eapply heap_extends_trans; eauto|exact O].
Qed.

Lemma ref_anneal_loop_sim (x_ref : ref) (x0 : tensor F) sigmas eps T
  (xs' : tensor F * list (tensor F)) (w' : @world F) (pw : @pyworld F) :
  nth_error (heap pw) x_ref = Some x0 ->
  anneal_loop draws score_nn x0 sigmas eps T (outside pw) = Ok (xs', w') ->
  ensures (ref_anneal_loop draws score_nn x_ref sigmas eps T) pw
    (fun rs' pw' => denotes (heap pw') rs' xs' /\
                    heap_extends (heap pw) (heap pw') /\
                    outside pw' = w').
Proof.
  intros Hx Hr. unfold ref_anneal_loop, anneal_loop in *.
  apply (for_in_sim (fun _ => True)
           (ref_outer_body draws score_nn sigmas eps T)
           (outer_body draws score_nn sigmas eps T))
    with (xs := (x0, [])); auto.
  - intros a rs xs xs1 w1 pw0 _ Hd Hv. eapply ref_outer_body_sim; eauto.
  - split; [exact Hx|reflexivity].
Qed.

End StoreFacts.

Section StoreTheorems.
Context {F : Type} {SF : Scalar F}.

(** C7, as the code has it.  The sampler does not write to the caller's
    tensor.  Whenever the sampler on values returns, the sampler on
    references returns too; its final [x] and its snapshots are references
    to the final sample and to the snapshots of the run on values; and the
    store it leaves extends the store it was given, so that every tensor
    that existed before the call, the caller's [x] among them, is where it
    was and holds the value it had. *)
Theorem caller_tensor_not_modified draws score_nn (h : list (tensor F))
  (w : @world F) (x_ref : ref) (x0 : tensor F) sigmas eps T x' samples w' :
  nth_error h x_ref = Some x0 ->
  anneal_loop draws score_nn x0 sigmas eps T w = Ok ((x', samples), w') ->
  exists rx' rs h',
    ref_anneal_loop draws score_nn x_ref sigmas eps T (PyWorld h w)
    = Ok ((rx', rs), PyWorld h' w') /\
    nth_error h' rx' = Some x' /\
    deref_all h' rs = map Some samples /\
    heap_extends h h' /\
    nth_error h' x_ref = Some x0.
Proof.
  intros Hx Hr.
  destruct (@ref_anneal_loop_sim F SF draws score_nn x_ref x0 sigmas eps T
              (x', samples) w' (PyWorld h w) Hx Hr)
    as ([rx' rs] & [h' w1] & E & [Dx Ds] & X & O).
  simpl in *. subst w1. exists rx', rs, h'.
  split; [exact E|]. split; [exact Dx|]. split; [exact Ds|].
  split; [exact X|]. eapply heap_extends_lookup; eauto.
Qed.

End StoreTheorems.

Section StoreExamples.

Local Open Scope float_scope.

Lemma caller_tensor_not_modified_witness :
  exists rx' rs h' w',
    ref_anneal_loop quarter_draws neg_score 0%nat demo_sigmas 0.5 2
      (PyWorld [demo_x] start)
    = Ok ((rx', rs), PyWorld h' w') /\
    nth_error h' rx' = Some (Tensor (Shape 1 1 1 2) [0.5; 1.125]) /\
    deref_all h' rs
    = map Some [Tensor (Shape 1 1 1 2) [0.5; 1]; Tensor (Shape 1 1 1 2) [0; -1];
                Tensor (Shape 1 1 1 2) [0.5; 1]; Tensor (Shape 1 1 1 2) [0.5; 1]] /\
    heap_extends [demo_x] h' /\
    nth_error h' 0%nat = Some demo_x.
Proof.
  edestruct (@caller_tensor_not_modified float float64 quarter_draws neg_score
               [demo_x] start 0%nat demo_x demo_sigmas 0.5 2%nat)
    as (rx' & rs & h' & H).
  - reflexivity.
  - vm_compute. reflexivity.
  - exists rx', rs, h'. eexists. exact H.
Defined.

(** C7, as the specification states it, fails.  On the run of two levels
    and two steps from [demo_x], stored at address 0, the loop ends with
    [x] bound to another address, where the final sample [0.5, 1.125] is,
    while address 0 still holds [0.5, 3]. *)
Lemma sample_tensor_not_updated_in_place :
  ~ (forall draws score_nn (x : ref) (sigmas : list float) eps T pw,
        updates_in_place draws score_nn x sigmas eps T pw).
Proof.
  intros H.
  pose proof (H quarter_draws neg_score 0%nat demo_sigmas 0.5 2%nat
                (PyWorld [demo_x] start)) as H'.
  unfold updates_in_place in H'. vm_compute in H'.
  specialize (H' _ _ _ eq_refl). discriminate H'.
Qed.

End StoreExamples.

(** ** The attention layer *)

Section AttentionTheorems.

Variable F : Type.
Variable float_pow : Z -> F -> F.
Variable neg_half : F.

Local Open Scope Z_scope.

(** C10.  For a positive number of channels and a non-negative number of
    heads the constructor returns a layer whose attention dimension is
    [n_channels * 10], whatever the number of heads, and whose scale is
    [(n_channels * 10) ** (-0.5)]; the two linear maps are sized with that
    dimension. *)
Theorem att_dim_is_ten_times_channels (n_channels heads : Z) :
  0 < n_channels -> 0 <= heads ->
  exists layer,
    AttLayer_init float_pow neg_half n_channels heads = Ok layer /\
    att_dim layer = n_channels * 10 /\
    scale layer = float_pow (n_channels * 10) neg_half /\
    n_heads layer = heads /\
    proj layer = {| in_features := n_channels;
                    out_features := 3 * heads * (n_channels * 10) |} /\
    out layer = {| in_features := heads * (n_channels * 10);
                   out_features := n_channels |}.
Proof.
  intros Hc Hh. unfold AttLayer_init, new_Linear.
  destruct (Z.eqb_spec (n_channels * 10) 0) as [E|_]; [lia|].
  destruct (Z.ltb_spec (n_channels * 10) 0) as [E|_]; [lia|].
  destruct (Z.ltb_spec n_channels 0) as [E|_]; [lia|].
  destruct (Z.ltb_spec (3 * heads * (n_channels * 10)) 0) as [E|_]; [nia|].
  destruct (Z.ltb_spec (heads * (n_channels * 10)) 0) as [E|_]; [nia|].
  simpl. eexists. split; [reflexivity|]. simpl. repeat split.
Qed.

End AttentionTheorems.

Lemma att_dim_is_ten_times_channels_witness :
  exists layer,
    AttLayer_init (fun b e => Rpower (IZR b) e) (- / 2)%R 64 1 = Ok layer /\
    att_dim layer = 640%Z /\
    scale layer = Rpower 640 (- / 2) /\
    n_heads layer = 1%Z /\
    proj layer = {| in_features := 64; out_features := 1920 |} /\
    out layer = {| in_features := 640; out_features := 64 |}.
Proof.
  apply (@att_dim_is_ten_times_channels R (fun b e => Rpower (IZR b) e)
           (- / 2)%R 64 1); lia.
Defined.

(** Read over the real numbers, the scale of a layer with [n_channels]
    channels is [1 / sqrt(10 * n_channels)]. *)
Lemma scale_over_reals (n_channels : Z) :
  (0 < n_channels)%Z ->
  Rpower (IZR (n_channels * 10)) (- / 2) = (/ sqrt (IZR (n_channels * 10)))%R.
Proof.
  intros H. rewrite Rpower_Ropp, Rpower_sqrt; [reflexivity|].
  apply IZR_lt. lia.
Qed.

(** * Further properties of the sampler *)

Section SamplerExtras.
Context {F : Type} {SF : Scalar F}.
Variable draws : nat -> F.
Variable score_nn : tensor F -> tensor F -> tensor F.




(** ** What a call can raise *)










End SamplerExtras.

Section SamplerExtrasWitness.
Local Open Scope float_scope.



End SamplerExtrasWitness.

(** * Further properties of the object store *)

Section StoreExtras.
Context {F : Type} {SF : Scalar F}.
Variable draws : nat -> F.
Variable score_nn : tensor F -> tensor F -> tensor F.

Lemma bind_ok {W A B} (m : M W A) (k : A -> M W B) (w w' : W) (b : B) :
  bind m k w = Ok (b, w') ->
  exists a w1, m w = Ok (a, w1) /\ k a w1 = Ok (b, w').
Proof.
  unfold bind. destruct (m w) as [[a w1]|e]; [|discriminate].
  intros H. now exists a, w1.
Qed.

Lemma alloc_allocates (t : tensor F) : allocates_one (alloc t).
Proof.
  intros pw r pw' H. unfold alloc in H. inversion H. subst. simpl.
  rewrite length_app. simpl. split; [reflexivity|lia].
Qed.

Lemma load_ok (r : ref) (pw pw' : @pyworld F) (t : tensor F) :
  load r pw = Ok (t, pw') -> pw' = pw.
Proof.
  unfold load. destruct (nth_error (heap pw) r); [|discriminate].
  now intros [= _ <-].
Qed.

Lemma effect_ok {A} (m : M (@world F) A) (pw pw' : @pyworld F) (a : A) :
  effect m pw = Ok (a, pw') -> heap pw' = heap pw.
Proof.
  unfold effect. destruct (m (outside pw)) as [[a' w']|e]; [|discriminate].
  now intros [= _ <-].
Qed.

Lemma lift_ok {A} (r : result A) (pw pw' : @pyworld F) (a : A) :
  lift r pw = Ok (a, pw') -> pw' = pw.
Proof.
  unfold lift. destruct r; [|discriminate]. now intros [= _ <-].
Qed.

Lemma after_load_allocates (x : ref) (k : tensor F -> M (@pyworld F) ref) :
  (forall t, allocates_one (k t)) -> allocates_one (bind (load x) k).
Proof.
  intros Hk pw r pw' H. apply bind_ok in H. destruct H as (t & pw1 & L & K).
  apply load_ok in L. subst pw1. eapply Hk; eauto.
Qed.

Lemma after_effect_allocates {A} (m : M (@world F) A)
  (k : A -> M (@pyworld F) ref) :
  (forall a, allocates_one (k a)) -> allocates_one (bind (effect m) k).
Proof.
  intros Hk pw r pw' H. apply bind_ok in H. destruct H as (a & pw1 & E & K).
  apply effect_ok in E. destruct (Hk a _ _ _ K) as [R L]. rewrite E in R, L.
  auto.
Qed.

Lemma after_lift_allocates {A} (res : result A) (k : A -> M (@pyworld F) ref) :
  (forall a, allocates_one (k a)) -> allocates_one (bind (lift res) k).
Proof.
  intros Hk pw r pw' H. apply bind_ok in H. destruct H as (a & pw1 & E & K).
  apply lift_ok in E. subst pw1. eapply Hk; eauto.
Qed.

Lemma ref_clamp_allocates x lo hi : allocates_one (ref_clamp x lo hi).
Proof. apply after_load_allocates. intros t. apply alloc_allocates. Qed.

Lemma ref_mul_scalar_allocates x c : allocates_one (ref_mul_scalar x c).
Proof. apply after_load_allocates. intros t. apply alloc_allocates. Qed.

Lemma ref_scalar_mul_allocates c x : allocates_one (ref_scalar_mul c x).
Proof. apply after_load_allocates. intros t. apply alloc_allocates. Qed.

Lemma ref_randn_like_allocates x : allocates_one (ref_randn_like draws x).
Proof.
  apply after_load_allocates. intros t. apply after_effect_allocates.
  intros r. apply alloc_allocates.
Qed.

Lemma ref_call_score_allocates x u : allocates_one (ref_call_score score_nn x u).
Proof.
  apply after_load_allocates. intros tx. apply after_load_allocates. intros tu.
  apply after_effect_allocates. intros s. apply alloc_allocates.
Qed.

Lemma ref_add_allocates a b : allocates_one (ref_add a b).
Proof.
  apply after_load_allocates. intros ta. apply after_load_allocates. intros tb.
  apply after_lift_allocates. intros t. apply alloc_allocates.
Qed.

Lemma ref_append_ok samples r (pw pw' : @pyworld F) s' :
  ref_append samples r pw = Ok (s', pw') ->
  s' = samples ++ [r] /\ heap pw' = heap pw.
Proof.
  unfold ref_append. intros H.
  apply bind_ok in H. destruct H as (t & pw1 & L & H). apply load_ok in L.
  subst pw1. apply bind_ok in H. destruct H as (u & pw2 & E & H).
  apply effect_ok in E. unfold ret in H. inversion H. subst. auto.
Qed.

Lemma ref_inner_body_fresh n0 used step t st (pw pw' : @pyworld F) st' :
  fresh_snapshots n0 st pw ->
  ref_inner_body draws score_nn used step t st pw = Ok (st', pw') ->
  fresh_snapshots n0 st' pw'.
Proof.
  destruct st as [x samples]. intros (Hn & Hall & Hnd & Hx) H.
  unfold ref_inner_body in H. simpl in *.
  apply bind_ok in H. destruct H as (c & pw1 & E1 & H).
  apply ref_clamp_allocates in E1. destruct E1 as [-> L1].
  apply bind_ok in H. destruct H as (snapshot & pw1' & E & H).
  unfold ref_to_cpu, ret in E. inversion E. subst snapshot pw1'. clear E.
  apply bind_ok in H. destruct H as (s1 & pw2 & E2 & H).
  apply ref_append_ok in E2. destruct E2 as [-> L2].
  apply bind_ok in H. destruct H as (r & pw3 & E3 & H).
  apply ref_randn_like_allocates in E3. destruct E3 as [-> L3].
  apply bind_ok in H. destruct H as (z & pw4 & E4 & H).
  apply ref_mul_scalar_allocates in E4. destruct E4 as [-> L4].
  apply bind_ok in H. destruct H as (sc & pw5 & E5 & H).
  apply ref_call_score_allocates in E5. destruct E5 as [-> L5].
  apply bind_ok in H. destruct H as (scaled & pw6 & E6 & H).
  apply ref_scalar_mul_allocates in E6. destruct E6 as [-> L6].
  apply bind_ok in H. destruct H as (a & pw7 & E7 & H).
  apply ref_add_allocates in E7. destruct E7 as [-> L7].
  apply bind_ok in H. destruct H as (x' & pw8 & E8 & H).
  apply ref_add_allocates in E8. destruct E8 as [-> L8].
  unfold ret in H. inversion H. subst st' pw'. clear H.
  rewrite L2 in *.
  assert (Hlen : length (heap pw8) = length (heap pw) + 7) by lia.
  unfold fresh_snapshots. simpl. rewrite Hlen. repeat split.
  - lia.
  - apply Forall_app. split.
    + eapply Forall_impl; [|exact Hall]. simpl. intros r0 Hr. lia.
    + constructor; [lia|constructor].
  - apply NoDup_app; [exact Hnd|repeat constructor; auto|].
    intros a Ha [<-|[]]. rewrite Forall_forall in Hall.
    specialize (Hall _ Ha). lia.
  - intros Hin. apply in_app_or in Hin. destruct Hin as [Hin|[Hin|[]]].
    + rewrite Forall_forall in Hall. specialize (Hall _ Hin). lia.
    + lia.
Qed.

Lemma ref_inner_loop_fresh n0 used step ts st (pw pw' : @pyworld F) st' :
  fresh_snapshots n0 st pw ->
  for_in ts (ref_inner_body draws score_nn used step) st pw = Ok (st', pw') ->
  fresh_snapshots n0 st' pw'.
Proof.
  intros H0 Hr.
  apply (for_in_preserves (fresh_snapshots n0)
           (ref_inner_body draws score_nn used step)) with (2 := H0) (3 := Hr).
  intros t s w s' w' Hi Hb. eapply ref_inner_body_fresh; eauto.
Qed.

Lemma ref_outer_body_fresh n0 sigmas eps T ls st (pw pw' : @pyworld F) st' :
  fresh_snapshots n0 st pw ->
  ref_outer_body draws score_nn sigmas eps T ls st pw = Ok (st', pw') ->
  fresh_snapshots n0 st' pw'.
Proof.
  destruct ls as [label sigma]. intros (Hn & Hall & Hnd & Hx) H.
  unfold ref_outer_body in H.
  apply bind_ok in H. destruct H as (n & pw1 & E1 & H).
  unfold ref_size0 in E1. apply bind_ok in E1.
  destruct E1 as (t & pw0 & L & R). apply load_ok in L. subst pw0.
  unfold ret in R. inversion R. subst n pw1. clear R.
  apply bind_ok in H. destruct H as (g & pw2 & E2 & H). apply effect_ok in E2.
  apply bind_ok in H. destruct H as (u & pw3 & E3 & H).
  apply alloc_allocates in E3. destruct E3 as [-> L3].
  apply bind_ok in H. destruct H as (l & pw4 & E4 & H). apply effect_ok in E4.
  eapply ref_inner_loop_fresh; [|exact H].
  unfold fresh_snapshots. rewrite E4, L3, E2. repeat split; auto.
  eapply Forall_impl; [|exact Hall]. simpl. intros r Hr. lia.
Qed.

End StoreExtras.

Section StoreExtrasTheorems.
Context {F : Type} {SF : Scalar F}.

(** X3.  On references, a call that returns has created every snapshot
    during the call: the snapshots are objects that were not in the store
    before, no two of them are the same object, and none of them is the
    caller's tensor or the tensor the loop ends with. *)
Theorem snapshots_are_fresh_objects draws score_nn (h : list (tensor F))
  (w : @world F) (x_ref : ref) (x0 : tensor F) sigmas eps T x' samples pw' :
  nth_error h x_ref = Some x0 ->
  ref_anneal_loop draws score_nn x_ref sigmas eps T (PyWorld h w)
  = Ok ((x', samples), pw') ->
  Forall (fun r => length h <= r < length (heap pw')) samples /\
  NoDup samples /\
  ~ In x_ref samples /\
  ~ In x' samples.
Proof.
  intros Hx Hr.
  assert (Hf : fresh_snapshots (length h) (x', samples) pw').
  { unfold ref_anneal_loop in Hr.
    apply (for_in_preserves (fresh_snapshots (length h))
             (ref_outer_body draws score_nn sigmas eps T)) with (3 := Hr).
    - intros a s w0 s' w0' Hi Hb. eapply ref_outer_body_fresh; eauto.
    - unfold fresh_snapshots. simpl. repeat split; auto. constructor. }
  destruct Hf as (_ & Hall & Hnd & Hx'). simpl in *.
  split; [exact Hall|]. split; [exact Hnd|]. split; [|exact Hx'].
  intros Hin. rewrite Forall_forall in Hall. specialize (Hall _ Hin).
  assert (x_ref < length h) by (apply nth_error_Some; congruence). lia.
Qed.

End StoreExtrasTheorems.

Section StoreExtrasWitness.
Local Open Scope float_scope.

Lemma snapshots_are_fresh_objects_witness :
  exists x' samples pw',
    ref_anneal_loop quarter_draws neg_score 0%nat demo_sigmas 0.5 2
      (PyWorld [demo_x] start)
    = Ok ((x', samples), pw') /\
    samples = [2; 9; 17; 24]%nat /\
    Forall (fun r => (length [demo_x] <= r < length (heap pw'))%nat) samples /\
    NoDup samples /\
    ~ In 0%nat samples /\
    ~ In x' samples.
Proof.
  eexists _, _, _. split; [vm_compute; reflexivity|].
  split; [reflexivity|].
  eapply (@snapshots_are_fresh_objects float float64 quarter_draws neg_score
            [demo_x] start 0%nat demo_x demo_sigmas 0.5 2%nat).
  - reflexivity.
  - vm_compute. reflexivity.
Defined.

End StoreExtrasWitness.

(** ** The time embedding *)

Section TimeEmbeddingFacts.
Context {F : Type} {SF : Scalar F} {EF : Elementary F}.

Lemma cat_cols_same_rows (r c1 c2 : nat) (e1 e2 : list (list F)) :
  cat_cols (Matrix r c1 e1) (Matrix r c2 e2)
  = Ok (Matrix r (c1 + c2)
          (map (fun rs => fst rs ++ snd rs) (combine e1 e2))).
Proof. unfold cat_cols. simpl. now rewrite Nat.eqb_refl. Qed.

Lemma combine_map_same {A B C} (f : A -> B) (g : A -> C) (l : list A) :
  combine (map f l) (map g l) = map (fun a => (f a, g a)) l.
Proof. induction l as [|a l IH]; simpl; [reflexivity|now rewrite IH]. Qed.

Lemma PositionalEncoding_forward_ok (t : list F) (n_embed : Z) :
  (2 <= n_embed)%Z ->
  exists m,
    PositionalEncoding_forward t n_embed = Ok m /\
    matrix_ok m /\
    n_rows m = length t /\
    Z.of_nat (n_cols m) = (n_embed - n_embed mod 2)%Z.
Proof.
  intros Hn. unfold PositionalEncoding_forward.
  assert (Hh : (1 <= n_embed / 2)%Z) by (apply Z.div_le_lower_bound; lia).
  destruct (Z.eqb_spec (n_embed / 2) 0) as [E|_]; [lia|].
  destruct (Z.ltb_spec (n_embed / 2) 0) as [E|_]; [lia|].
  rewrite cat_cols_same_rows. eexists. split; [reflexivity|].
  unfold matrix_ok. simpl. rewrite combine_map_same, map_map.
  rewrite !length_map, length_seq. repeat split.
  - apply Forall_map, Forall_forall. intros tb _. cbn [fst snd].
    rewrite length_app, !length_map, length_seq. reflexivity.
  - pose proof (Z.div_mod n_embed 2). lia.
Qed.

Lemma PositionalEncoding_forward_raise (t : list F) (n_embed : Z) :
  (n_embed < 2)%Z ->
  PositionalEncoding_forward t n_embed
  = Raise (if (0 <=? n_embed)%Z then ZeroDivisionError else RuntimeError).
Proof.
  intros Hn. unfold PositionalEncoding_forward.
  destruct (Z.leb_spec 0 n_embed) as [H0|H0].
  - assert (E : (n_embed / 2 = 0)%Z) by (apply Z.div_small; lia).
    now rewrite E.
  - assert (E : (n_embed / 2 < 0)%Z) by (apply Z.div_lt_upper_bound; lia).
    destruct (Z.eqb_spec (n_embed / 2) 0) as [E0|_]; [lia|].
    destruct (Z.ltb_spec (n_embed / 2) 0) as [_|E1]; [reflexivity|lia].
Qed.

(** X4.  For [n_embed >= 2] the positional encoding of [b] time stamps
    is a well-formed tensor of [b] rows and [2 * (n_embed // 2)] columns:
    [n_embed] columns when [n_embed] is even, [n_embed - 1] when it is
    odd. *)
Theorem positional_encoding_shape (t : list F) (n_embed : Z) :
  (2 <= n_embed)%Z ->
  exists m,
    PositionalEncoding_forward t n_embed = Ok m /\
    matrix_ok m /\
    n_rows m = length t /\
    Z.of_nat (n_cols m) = (n_embed - n_embed mod 2)%Z.
Proof. apply PositionalEncoding_forward_ok. Qed.

(** X5.  For [n_embed] 0 or 1 the positional encoding raises
    [ZeroDivisionError], and for a negative [n_embed] it raises the
    engine's [RuntimeError]. *)
Theorem positional_encoding_errors (t : list F) (n_embed : Z) :
  (n_embed < 2)%Z ->
  PositionalEncoding_forward t n_embed
  = Raise (if (0 <=? n_embed)%Z then ZeroDivisionError else RuntimeError).
Proof. apply PositionalEncoding_forward_raise. Qed.

Lemma Linear_forward_new_ok w_init b_init (i o : Z) (l : LinearLayer F)
  (x : matrix F) :
  LinearLayer_new w_init b_init i o = Ok l ->
  matrix_ok x ->
  Z.of_nat (n_cols x) = i ->
  exists m,
    Linear_forward l x = Ok m /\ matrix_ok m /\
    n_rows m = n_rows x /\ n_cols m = Z.to_nat o.
Proof.
  unfold LinearLayer_new.
  destruct ((i <? 0) || (o <? 0))%Z; [discriminate|].
  intros [= <-] [Hr Hc] Hi. unfold Linear_forward. simpl.
  rewrite Hi, Z.eqb_refl. eexists. split; [reflexivity|].
  unfold matrix_ok. simpl. rewrite length_map. repeat split; auto.
  apply Forall_map, Forall_forall. intros row _.
  now rewrite length_map, length_combine, !length_map, !length_seq, Nat.min_id.
Qed.

Lemma Linear_forward_mismatch w_init b_init (i o : Z) (l : LinearLayer F)
  (x : matrix F) :
  LinearLayer_new w_init b_init i o = Ok l ->
  Z.of_nat (n_cols x) <> i ->
  Linear_forward l x = Raise RuntimeError.
Proof.
  unfold LinearLayer_new.
  destruct ((i <? 0) || (o <? 0))%Z; [discriminate|].
  intros [= <-] Hi. unfold Linear_forward. simpl.
  destruct (Z.eqb_spec (Z.of_nat (n_cols x)) i); [contradiction|reflexivity].
Qed.

Lemma Swish_forward_ok (x : matrix F) :
  matrix_ok x -> matrix_ok (Swish_forward x).
Proof.
  intros [Hr Hc]. unfold matrix_ok, Swish_forward. simpl.
  rewrite length_map. split; [exact Hr|].
  apply Forall_map. eapply Forall_impl; [|exact Hc]. simpl.
  intros row H. now rewrite length_map.
Qed.

(** X6.  An embedding layer built with [0 < scale_fact <= n_embed]
    works only when [n_embed // scale_fact] is even: then [forward] maps
    [b] time stamps to a tensor of shape [b x n_embed].  When
    [n_embed // scale_fact] is odd and at least 3, the encoding is one
    column short of what the first linear map takes and [forward] raises
    [RuntimeError]; when it is 1, [forward] raises
    [ZeroDivisionError]. *)
Theorem emb_layer_forward_cases w1 b1 w2 b2 (n_embed scale_fact : Z)
  (t : list F) :
  (0 < scale_fact)%Z -> (scale_fact <= n_embed)%Z ->
  exists layer,
    EmbLayer_init w1 b1 w2 b2 n_embed scale_fact = Ok layer /\
    let scaled := (n_embed / scale_fact)%Z in
    if (scaled =? 1)%Z then
      EmbLayer_forward layer t = Raise ZeroDivisionError
    else if Z.even scaled then
      exists m,
        EmbLayer_forward layer t = Ok m /\ matrix_ok m /\
        n_rows m = length t /\ n_cols m = Z.to_nat n_embed
    else EmbLayer_forward layer t = Raise RuntimeError.
Proof.
  intros Hs Hle. assert (Hn : (0 <= n_embed)%Z) by lia.
  assert (H1 : (1 <= n_embed / scale_fact)%Z)
    by (apply Z.div_le_lower_bound; lia).
  unfold EmbLayer_init.
  destruct (Z.eqb_spec scale_fact 0) as [E|_]; [lia|].
  assert (Hq : (0 <= n_embed / scale_fact)%Z) by (apply Z.div_pos; lia).
  destruct (LinearLayer_new w1 b1 (n_embed / scale_fact) n_embed) as [l1|e] eqn:E1.
  2:{ unfold LinearLayer_new in E1.
      destruct (Z.ltb_spec (n_embed / scale_fact) 0); [lia|].
      destruct (Z.ltb_spec n_embed 0); [lia|]. discriminate. }
  destruct (LinearLayer_new w2 b2 n_embed n_embed) as [l2|e] eqn:E2.
  2:{ unfold LinearLayer_new in E2.
      destruct (Z.ltb_spec n_embed 0); [lia|]. discriminate. }
  simpl. eexists. split; [reflexivity|]. unfold EmbLayer_forward. simpl.
  set (scaled := (n_embed / scale_fact)%Z) in *.
  destruct (Z.eqb_spec scaled 1) as [Hlt|Hge].
  - rewrite PositionalEncoding_forward_raise by lia.
    destruct (Z.leb_spec 0 scaled); [reflexivity|lia].
  - assert (Hge2 : (2 <= scaled)%Z) by lia.
    destruct (PositionalEncoding_forward_ok t Hge2) as (m & Em & Om & Rm & Cm).
    rewrite Em. simpl.
    destruct (Z.even scaled) eqn:Ev.
    + assert (Hmod : (scaled mod 2 = 0)%Z).
      { rewrite Zmod_even, Ev. reflexivity. }
      rewrite Hmod, Z.sub_0_r in Cm.
      edestruct Linear_forward_new_ok as (a & Ea & Oa & Ra & Ca);
        [exact E1|exact Om|exact Cm|].
      rewrite Ea. simpl.
      edestruct Linear_forward_new_ok as (m2 & E3 & O3 & R3 & C3);
        [exact E2|exact (Swish_forward_ok Oa)
        |simpl; rewrite Ca; apply Z2Nat.id; exact Hn|].
      exists m2. split; [exact E3|]. split; [exact O3|].
      split; [|exact C3]. rewrite R3. simpl. now rewrite Ra.
    + assert (Hmod : (scaled mod 2 = 1)%Z).
      { rewrite Zmod_even, Ev. reflexivity. }
      erewrite Linear_forward_mismatch; [reflexivity|exact E1|].
      rewrite Cm, Hmod. lia.
Qed.

End TimeEmbeddingFacts.

Lemma positional_encoding_shape_witness :
  exists m,
    PositionalEncoding_forward [1%R; 2%R; 3%R] 5 = Ok m /\
    matrix_ok m /\
    n_rows m = 3 /\
    Z.of_nat (n_cols m) = 4%Z.
Proof.
  apply (@positional_encoding_shape R exact_reals real_functions
           [1%R; 2%R; 3%R] 5).
  lia.
Defined.

Lemma positional_encoding_errors_witness :
  PositionalEncoding_forward [1%R; 2%R; 3%R] 1 = Raise ZeroDivisionError.
Proof.
  apply (@positional_encoding_errors R exact_reals real_functions
           [1%R; 2%R; 3%R] 1).
  lia.
Defined.

Lemma emb_layer_forward_cases_witness :
  exists layer,
    EmbLayer_init (fun _ _ => 1%R) (fun _ => 0%R) (fun _ _ => 1%R)
      (fun _ => 0%R) 32 4 = Ok layer /\
    exists m,
      EmbLayer_forward layer [1%R; 2%R; 3%R] = Ok m /\ matrix_ok m /\
      n_rows m = 3 /\ n_cols m = 32.
Proof.
  apply (@emb_layer_forward_cases R exact_reals real_functions
           (fun _ _ => 1%R) (fun _ => 0%R) (fun _ _ => 1%R) (fun _ => 0%R)
           32 4 [1%R; 2%R; 3%R]); lia.
Defined.

(** ** The time embedding in exact arithmetic *)

Section PositionalEncodingReals.

Local Open Scope R_scope.

Lemma nth_map_default {A B} (f : A -> B) (l : list A) (k : nat) (d : B) (d' : A) :
  (k < length l)%nat -> nth k (map f l) d = f (nth k l d').
Proof.
  intros Hk. rewrite (nth_indep _ d (f d')) by now rewrite length_map.
  apply map_nth.
Qed.

(** X7.  Over the real numbers, row [b] of the positional encoding holds
    in column [j] the sine and in column [n_embed // 2 + j] the cosine of
    one angle, [t_b / 10000^(j / (n_embed // 2))]; the squares of the
    two entries add up to 1. *)
Theorem positional_encoding_pairs (t : list R) (n_embed : Z) (m : matrix R)
  (b j : nat) :
  PositionalEncoding_forward t n_embed = Ok m ->
  (b < length t)%nat ->
  (Z.of_nat j < n_embed / 2)%Z ->
  let row := nth b (entries m) [] in
  let half := Z.to_nat (n_embed / 2) in
  let angle :=
    nth b t 0 * Rpower 10000 (- (IZR (Z.of_nat j) / IZR (n_embed / 2))) in
  nth j row 0 = sin angle /\
  nth (half + j) row 0 = cos angle /\
  (nth j row 0)² + (nth (half + j) row 0)² = 1.
Proof.
  intros Hm Hb Hj. unfold PositionalEncoding_forward in Hm.
  destruct (Z.eqb_spec (n_embed / 2) 0) as [E|Hne]; [discriminate|].
  destruct (Z.ltb_spec (n_embed / 2) 0) as [E|Hge]; [discriminate|].
  unfold cat_cols in Hm. simpl in Hm. rewrite Nat.eqb_refl in Hm.
  inversion Hm as [Hm']. clear Hm Hm'. cbn [entries].
  rewrite combine_map_same, map_map.
  rewrite nth_map_default with (d' := 0) by exact Hb. cbn [fst snd].
  set (half := Z.to_nat (n_embed / 2)).
  assert (Hjh : (j < half)%nat) by (unfold half; lia).
  set (out := map _ (map Z.of_nat (seq 0 half))).
  assert (Hlen : length out = half)
    by (unfold out; now rewrite !length_map, length_seq).
  assert (Hout : nth j out 0
                 = Rpower 10000 (- (IZR (Z.of_nat j) / IZR (n_embed / 2)))).
  { unfold out. rewrite nth_map_default with (d' := 0%Z)
      by (rewrite length_map, length_seq; exact Hjh).
    rewrite nth_map_default with (d' := 0%nat)
      by (rewrite length_seq; exact Hjh).
    rewrite seq_nth by exact Hjh. simpl. unfold Rpower. f_equal.
    field. apply not_0_IZR. exact Hne. }
  assert (S1 : nth j (map (fun f => sin (nth b t 0 * f)) out
                      ++ map (fun f => cos (nth b t 0 * f)) out) 0
               = sin (nth b t 0
                      * Rpower 10000 (- (IZR (Z.of_nat j) / IZR (n_embed / 2))))).
  { rewrite app_nth1 by (rewrite length_map; lia).
    rewrite nth_map_default with (d' := 0) by lia. now rewrite Hout. }
  assert (S2 : nth (half + j) (map (fun f => sin (nth b t 0 * f)) out
                               ++ map (fun f => cos (nth b t 0 * f)) out) 0
               = cos (nth b t 0
                      * Rpower 10000 (- (IZR (Z.of_nat j) / IZR (n_embed / 2))))).
  { rewrite app_nth2 by (rewrite length_map; lia).
    rewrite length_map, Hlen.
    replace (half + j - half)%nat with j by lia.
    rewrite nth_map_default with (d' := 0) by lia. now rewrite Hout. }
  simpl. simpl in S1, S2. rewrite S1, S2.
  split; [reflexivity|]. split; [reflexivity|]. apply sin2_cos2.
Qed.

Lemma positional_encoding_pairs_witness :
  exists m,
    PositionalEncoding_forward [1; 2; 3] 5 = Ok m /\
    nth 1 (nth 2 (entries m) []) 0
    = sin (3 * Rpower 10000 (- (1 / 2))) /\
    nth 3 (nth 2 (entries m) []) 0
    = cos (3 * Rpower 10000 (- (1 / 2))) /\
    (nth 1 (nth 2 (entries m) []) 0)² + (nth 3 (nth 2 (entries m) []) 0)² = 1.
Proof.
  eexists. split; [reflexivity|].
  apply (@positional_encoding_pairs [1; 2; 3] 5 _ 2 1);
    [reflexivity|simpl; lia|reflexivity].
Defined.

End PositionalEncodingReals.

(** ** The constructors of the UNet layers *)

Section ConstructorFacts.

Local Open Scope Z_scope.

Lemma outcome_bind_built {A B} (r : outcome A) (k : A -> outcome B) (b : B) :
  outcome_bind r k = Built b -> exists a, r = Built a /\ k a = Built b.
Proof. destruct r as [a|e]; simpl; [|discriminate]. intros H. now exists a. Qed.

Lemma new_Conv_built tr i o k s p c :
  new_Conv tr i o k s p = Built c ->
  c = {| transposed := tr; conv_in := i; conv_out := o;
         kernel_size := k; stride := s; padding := p |} /\
  0 <= i /\ 0 <= o.
Proof.
  unfold new_Conv.
  destruct (Z.ltb_spec i 0); simpl; [discriminate|].
  destruct (Z.ltb_spec o 0); simpl; [discriminate|].
  intros [= <-]. auto.
Qed.

Lemma new_Conv_ok tr i o k s p :
  0 <= i -> 0 <= o ->
  new_Conv tr i o k s p
  = Built {| transposed := tr; conv_in := i; conv_out := o;
             kernel_size := k; stride := s; padding := p |}.
Proof.
  intros Hi Ho. unfold new_Conv.
  destruct (Z.ltb_spec i 0); [lia|]. destruct (Z.ltb_spec o 0); [lia|].
  reflexivity.
Qed.

Lemma new_GroupNorm_built g c n :
  new_GroupNorm g c = Built n ->
  n = {| num_groups := g; num_channels := c |} /\ c mod g = 0 /\ g <> 0.
Proof.
  unfold new_GroupNorm.
  destruct (Z.eqb_spec g 0); [discriminate|].
  destruct (Z.eqb_spec (c mod g) 0); simpl; [|discriminate].
  destruct (Z.ltb_spec c 0); [discriminate|].
  intros [= <-]. auto.
Qed.

Lemma new_GroupNorm_ok g c :
  g <> 0 -> 0 <= c -> c mod g = 0 ->
  new_GroupNorm g c = Built {| num_groups := g; num_channels := c |}.
Proof.
  intros Hg Hc Hm. unfold new_GroupNorm.
  destruct (Z.eqb_spec g 0); [contradiction|].
  rewrite Hm. simpl. destruct (Z.ltb_spec c 0); [lia|]. reflexivity.
Qed.

Lemma new_GroupNorm_indivisible g c :
  g <> 0 -> c mod g <> 0 -> new_GroupNorm g c = Failed ValueError.
Proof.
  intros Hg Hm. unfold new_GroupNorm.
  destruct (Z.eqb_spec g 0); [contradiction|].
  destruct (Z.eqb_spec (c mod g) 0); [contradiction|]. reflexivity.
Qed.

Lemma new_Linear_ok i o :
  0 <= i -> 0 <= o ->
  new_Linear i o = Ok {| in_features := i; out_features := o |}.
Proof.
  intros Hi Ho. unfold new_Linear.
  destruct (Z.ltb_spec i 0); [lia|]. destruct (Z.ltb_spec o 0); [lia|].
  reflexivity.
Qed.

(** What a residual block that was built is made of. *)
Lemma ResBlock_init_built i o e g r :
  ResBlock_init i o e g = Built r ->
  conv_in (conv1 r) = i /\ conv_out (conv1 r) = o /\
  conv_in (conv2 r) = o /\ conv_out (conv2 r) = o /\
  i mod g = 0 /\ o mod g = 0 /\ 0 <= i /\ 0 <= o.
Proof.
  unfold ResBlock_init, Conv2d. intros H.
  apply outcome_bind_built in H. destruct H as (c1 & E1 & H).
  apply new_Conv_built in E1. destruct E1 as (-> & Hi & Ho).
  apply outcome_bind_built in H. destruct H as (n1 & E2 & H).
  apply new_GroupNorm_built in E2. destruct E2 as (-> & M1 & Hg).
  apply outcome_bind_built in H. destruct H as (c2 & E3 & H).
  apply new_Conv_built in E3. destruct E3 as (-> & _ & _).
  apply outcome_bind_built in H. destruct H as (n2 & E4 & H).
  apply new_GroupNorm_built in E4. destruct E4 as (-> & M2 & _).
  apply outcome_bind_built in H. destruct H as (sc & E5 & H).
  apply outcome_bind_built in H. destruct H as (l & E6 & H).
  inversion H. subst r. simpl. repeat split; auto.
Qed.

(** X8.  For positive sizes and a positive number of groups,
    [ResBlock.__init__] returns exactly when both channel counts are
    multiples of the number of groups, and raises [ValueError] otherwise.
    The block it returns has two 3x3 convolutions, from [in_channels] to
    [out_channels] and from [out_channels] to [out_channels], and its
    shortcut is the identity when the two channel counts are equal and a
    1x1 convolution from [in_channels] to [out_channels] when they are
    not. *)
Theorem res_block_init_cases (in_channels out_channels n_embed n_groups : Z) :
  0 < in_channels -> 0 < out_channels -> 0 < n_embed -> 0 < n_groups ->
  if (in_channels mod n_groups =? 0) && (out_channels mod n_groups =? 0) then
    exists r,
      ResBlock_init in_channels out_channels n_embed n_groups = Built r /\
      (conv_in (conv1 r), conv_out (conv1 r), kernel_size (conv1 r))
      = (in_channels, out_channels, 3) /\
      (conv_in (conv2 r), conv_out (conv2 r), kernel_size (conv2 r))
      = (out_channels, out_channels, 3) /\
      shortcut r
      = (if in_channels =? out_channels then None
         else Some {| transposed := false; conv_in := in_channels;
                      conv_out := out_channels; kernel_size := 1;
                      stride := 1; padding := 0 |})
  else ResBlock_init in_channels out_channels n_embed n_groups
       = Failed ValueError.
Proof.
  intros Hi Ho He Hg. unfold ResBlock_init, Conv2d.
  rewrite !new_Conv_ok by lia. simpl.
  destruct (Z.eqb_spec (in_channels mod n_groups) 0) as [M1|M1]; simpl.
  - rewrite new_GroupNorm_ok by lia. simpl.
    destruct (Z.eqb_spec (out_channels mod n_groups) 0) as [M2|M2]; simpl.
    + rewrite new_GroupNorm_ok by lia. simpl.
      rewrite new_Linear_ok by lia.
      destruct (Z.eqb_spec in_channels out_channels); simpl;
        eexists; (split; [reflexivity|]); simpl; auto.
    + rewrite new_GroupNorm_indivisible; [reflexivity|lia|assumption].
  - rewrite new_GroupNorm_indivisible; [reflexivity|lia|assumption].
Qed.

Lemma res_block_init_cases_witness :
  exists r,
    ResBlock_init 32 64 128 32 = Built r /\
    (conv_in (conv1 r), conv_out (conv1 r), kernel_size (conv1 r))
    = (32, 64, 3) /\
    (conv_in (conv2 r), conv_out (conv2 r), kernel_size (conv2 r))
    = (64, 64, 3) /\
    shortcut r
    = Some {| transposed := false; conv_in := 32; conv_out := 64;
              kernel_size := 1; stride := 1; padding := 0 |}.
Proof.
  apply (@res_block_init_cases 32 64 128 32); lia.
Defined.

End ConstructorFacts.

Section AttLayerCases.

Variable F : Type.
Variable float_pow : Z -> F -> F.
Variable neg_half : F.

Local Open Scope Z_scope.

(** X9.  With a number of heads that is not zero, [AttLayer.__init__]
    returns exactly when [n_channels] and [n_heads] are positive; it
    raises [ZeroDivisionError] exactly when [n_channels] is zero, and
    [RuntimeError] in the remaining cases. *)
Theorem att_layer_init_cases (n_channels heads : Z) :
  heads <> 0 ->
  ((exists layer, AttLayer_init float_pow neg_half n_channels heads = Ok layer)
   <-> 0 < n_channels /\ 0 < heads) /\
  (AttLayer_init float_pow neg_half n_channels heads = Raise ZeroDivisionError
   <-> n_channels = 0) /\
  (AttLayer_init float_pow neg_half n_channels heads = Raise RuntimeError
   <-> n_channels < 0 \/ (0 < n_channels /\ heads < 0)).
Proof.
  intros Hh.
  unfold AttLayer_init, new_Linear.
  destruct (Z.eqb_spec (n_channels * 10) 0) as [E0|E0];
    [|destruct (Z.ltb_spec (n_channels * 10) 0) as [E1|E1];
      [|destruct (Z.ltb_spec n_channels 0) as [E2|E2]; [lia|];
        destruct (Z.ltb_spec (3 * heads * (n_channels * 10)) 0) as [E3|E3];
        simpl;
        [|destruct (Z.ltb_spec (heads * (n_channels * 10)) 0) as [E4|E4];
          simpl; [nia|]]]];
    (split;
     [split; [intros [l H]; try discriminate | intros [H1 H2]]
     |split;
      [split; [intros H; try discriminate | intros H]
      |split; [intros H; try discriminate | intros [H|[H1 H2]]]]]);
    try lia; try nia; auto.
  eexists. reflexivity.
Qed.

End AttLayerCases.

Lemma att_layer_init_cases_witness :
  ((exists layer, AttLayer_init real_pow (- / 2)%R 0 1 = Ok layer)
   <-> (0 < 0 /\ 0 < 1)%Z) /\
  (AttLayer_init real_pow (- / 2)%R 0 1 = Raise ZeroDivisionError
   <-> 0%Z = 0%Z) /\
  (AttLayer_init real_pow (- / 2)%R 0 1 = Raise RuntimeError
   <-> (0 < 0 \/ (0 < 0 /\ 1 < 0))%Z).
Proof.
  apply (@att_layer_init_cases R real_pow (- / 2)%R 0 1). discriminate.
Defined.

(** ** The layers of a UNet block *)

Section MakeBlockFacts.

Variable F : Type.
Variable float_pow : Z -> F -> F.
Variable neg_half : F.

Local Open Scope Z_scope.

Lemma chained_app c (a b : list (Layer F)) :
  chained c (a ++ b) <-> chained c a /\ chained (channels_after c a) b.
Proof.
  revert c. induction a as [|l a IH]; intros c; simpl.
  - split; [intros H; split; [exact I|exact H]|intros [_ H]; exact H].
  - rewrite IH.
    split; [intros (H1 & H2 & H3)|intros ((H1 & H2) & H3)];
      repeat split; assumption.
Qed.

Lemma channels_after_app c (a b : list (Layer F)) :
  channels_after c (a ++ b) = channels_after (channels_after c a) b.
Proof. revert c. induction a as [|l a IH]; intros c; simpl; auto. Qed.

Lemma count_class_app cls (a b : list (Layer F)) :
  count_class cls (a ++ b) = (count_class cls a + count_class cls b)%nat.
Proof. unfold count_class. now rewrite filter_app, length_app. Qed.

Lemma count_class_map cls (blk : list (Layer F)) :
  count_class cls blk
  = length (filter (fun k => class_eqb k cls) (map (@class_of_layer F) blk)).
Proof.
  unfold count_class. induction blk as [|l blk IH]; simpl; auto.
  destruct (class_eqb (class_of_layer l) cls); simpl; auto.
Qed.

Lemma AttLayer_init_built c h a :
  AttLayer_init float_pow neg_half c h = Ok a ->
  in_features (proj a) = c /\ out_features (out a) = c /\ 0 < c.
Proof.
  unfold AttLayer_init, new_Linear.
  destruct (Z.eqb_spec (c * 10) 0); [discriminate|].
  destruct (Z.ltb_spec (c * 10) 0); [discriminate|].
  destruct ((c <? 0) || (3 * h * (c * 10) <? 0)); simpl; [discriminate|].
  destruct ((h * (c * 10) <? 0) || (c <? 0)); simpl; [discriminate|].
  intros [= <-]. simpl. repeat split; lia.
Qed.

Lemma AttLayer_init_default_ok c :
  0 < c -> exists a, AttLayer_init float_pow neg_half c default_n_heads = Ok a.
Proof.
  intros Hc. unfold AttLayer_init, new_Linear, default_n_heads.
  destruct (Z.eqb_spec (c * 10) 0); [lia|].
  destruct (Z.ltb_spec (c * 10) 0); [lia|].
  destruct (Z.ltb_spec c 0); [lia|].
  destruct (Z.ltb_spec (3 * 1 * (c * 10)) 0); [lia|].
  destruct (Z.ltb_spec (1 * (c * 10)) 0); [lia|].
  simpl. eexists. reflexivity.
Qed.

Lemma ResBlock_init_ok i o e g :
  0 <= i -> 0 <= o -> 0 <= e -> g <> 0 -> i mod g = 0 -> o mod g = 0 ->
  exists r, ResBlock_init i o e g = Built r.
Proof.
  intros Hi Ho He Hg M1 M2. unfold ResBlock_init, Conv2d.
  rewrite !new_Conv_ok, !new_GroupNorm_ok, new_Linear_ok by assumption.
  simpl. destruct (i =? o); simpl; eexists; reflexivity.
Qed.

Lemma ResBlock_init_indivisible i o e g :
  0 <= i -> 0 <= o -> g <> 0 -> (i mod g =? 0) && (o mod g =? 0) = false ->
  ResBlock_init i o e g = Failed ValueError.
Proof.
  intros Hi Ho Hg M. unfold ResBlock_init, Conv2d.
  rewrite !new_Conv_ok by assumption. simpl.
  destruct (Z.eqb_spec (i mod g) 0) as [M1|M1].
  - rewrite new_GroupNorm_ok by assumption. simpl.
    destruct (Z.eqb_spec (o mod g) 0) as [M2|M2]; [discriminate|].
    now rewrite new_GroupNorm_indivisible.
  - now rewrite new_GroupNorm_indivisible.
Qed.

(** One round of the loop appends a residual block from the current
    number of channels to [out_channels] and, in the rounds that have
    one, an attention layer on [out_channels]. *)
Lemma make_block_body_built out_channels n_embed num_res is_attn i model c st' :
  make_block_body float_pow neg_half out_channels n_embed num_res is_attn i
    (model, c) = Built st' ->
  exists added,
    st' = (model ++ added, out_channels) /\
    map (@class_of_layer F) added = round_classes num_res is_attn i /\
    chained c added /\ channels_after c added = out_channels /\
    c mod default_n_groups = 0 /\ out_channels mod default_n_groups = 0.
Proof.
  unfold make_block_body, round_classes. intros H.
  apply outcome_bind_built in H. destruct H as (r & Er & H).
  apply ResBlock_init_built in Er.
  destruct Er as (I1 & _ & _ & O2 & M1 & M2 & _).
  apply outcome_bind_built in H. destruct H as (model' & Em & H).
  injection H as <-.
  destruct (is_attn && negb (Z.of_nat i =? num_res - 1)).
  - apply outcome_bind_built in Em. destruct Em as (a & Ea & Em).
    injection Em as <-.
    destruct (AttLayer_init float_pow neg_half out_channels default_n_heads)
      as [a'|] eqn:Ei; simpl in Ea; [|discriminate].
    injection Ea as ->.
    apply AttLayer_init_built in Ei. destruct Ei as (A1 & A2 & _).
    exists [@LRes F r; @LAtt F a]. rewrite <- app_assoc. simpl.
    repeat split; auto; congruence.
  - injection Em as <-. exists [@LRes F r]. simpl. repeat split; auto.
Qed.

Lemma make_block_loop out_channels n_embed num_res is_attn idxs :
  forall model c st',
    outcome_for idxs
      (make_block_body float_pow neg_half out_channels n_embed num_res is_attn)
      (model, c) = Built st' ->
    exists added,
      fst st' = model ++ added /\
      map (@class_of_layer F) added
      = flat_map (round_classes num_res is_attn) idxs /\
      chained c added /\
      channels_after c added
      = match idxs with [] => c | _ => out_channels end /\
      (idxs <> [] ->
       c mod default_n_groups = 0 /\ out_channels mod default_n_groups = 0).
Proof.
  induction idxs as [|i idxs IH]; intros model c st' H.
  - injection H as <-. exists []. simpl. rewrite app_nil_r.
    repeat split; auto; congruence.
  - cbn [outcome_for] in H.
    apply outcome_bind_built in H. destruct H as (st1 & E1 & H).
    apply make_block_body_built in E1.
    destruct E1 as (added1 & -> & C1 & Ch1 & A1 & M1 & M2).
    apply IH in H. destruct H as (added2 & E2 & C2 & Ch2 & A2 & _).
    exists (added1 ++ added2). rewrite app_assoc.
    repeat split; auto.
    + cbn [flat_map]. now rewrite map_app, C1, C2.
    + apply chained_app. rewrite A1. auto.
    + rewrite channels_after_app, A1, A2. now destruct idxs.
Qed.

Lemma new_sample_built cls in_channels out_channels s :
  @new_sample F cls in_channels out_channels = Built s ->
  @class_of_layer F s = class_of_sample cls /\
  channels_in s = out_channels /\
  channels_out s
  = match cls with
    | sample_DownSample => out_channels
    | sample_UpSample =>
        if in_channels <? out_channels then out_channels / 2 else out_channels
    end.
Proof.
  destruct cls; simpl; unfold DownSample_init, UpSample_init, Conv2d,
    ConvTranspose2d; intros H.
  - apply outcome_bind_built in H. destruct H as (d & H & E).
    injection E as <-.
    apply outcome_bind_built in H. destruct H as (c & H & E).
    injection E as <-. apply new_Conv_built in H. destruct H as (-> & _).
    auto.
  - apply outcome_bind_built in H. destruct H as (d & H & E).
    injection E as <-.
    apply outcome_bind_built in H. destruct H as (c & H & E).
    injection E as <-. apply new_Conv_built in H. destruct H as (-> & _).
    auto.
Qed.

(** What [_make_block] returns: the layers of the rounds, then the
    sampling layer when there is one. *)
Lemma make_block_built in_channels out_channels n_embed num_res sample is_attn blk :
  make_block float_pow neg_half in_channels out_channels n_embed num_res
    sample is_attn = Built blk ->
  exists body tail,
    blk = body ++ tail /\
    map (@class_of_layer F) body
    = flat_map (round_classes num_res is_attn) (seq 0 (Z.to_nat num_res)) /\
    chained in_channels body /\
    (1 <= num_res ->
     channels_after in_channels body = out_channels /\
     in_channels mod default_n_groups = 0 /\
     out_channels mod default_n_groups = 0) /\
    match sample with
    | None => tail = []
    | Some cls =>
        exists s, tail = [s] /\
          @new_sample F cls in_channels out_channels = Built s
    end.
Proof.
  unfold make_block. intros H.
  apply outcome_bind_built in H. destruct H as (st & L & H).
  apply make_block_loop in L. simpl in L.
  destruct L as (body & E & C & Ch & A & M).
  exists body.
  assert (Hn : 1 <= num_res ->
               channels_after in_channels body = out_channels /\
               in_channels mod default_n_groups = 0 /\
               out_channels mod default_n_groups = 0).
  { intros Hn. destruct (Z.to_nat num_res) as [|n] eqn:En; [lia|].
    simpl in A, M. split; [exact A|]. apply M. discriminate. }
  destruct sample as [cls|].
  - apply outcome_bind_built in H. destruct H as (s & Es & H).
    injection H as <-. exists [s]. rewrite E.
    split; [reflexivity|]. split; [exact C|]. split; [exact Ch|].
    split; [exact Hn|]. exists s. auto.
  - injection H as <-. exists []. rewrite E, app_nil_r.
    split; [reflexivity|]. split; [exact C|]. split; [exact Ch|].
    split; [exact Hn|]. reflexivity.
Qed.

Lemma make_block_classes in_channels out_channels n_embed num_res sample is_attn blk :
  make_block float_pow neg_half in_channels out_channels n_embed num_res
    sample is_attn = Built blk ->
  map (@class_of_layer F) blk = block_classes num_res sample is_attn.
Proof.
  intros H. apply make_block_built in H.
  destruct H as (body & tl & -> & C & _ & _ & T).
  unfold block_classes. rewrite map_app, C. f_equal.
  destruct sample as [cls|]; [|now subst tl].
  destruct T as (s & -> & Es). apply new_sample_built in Es.
  simpl. now destruct Es as (-> & _).
Qed.

End MakeBlockFacts.

Section MakeBlockTheorems.

Variable F : Type.
Variable float_pow : Z -> F -> F.
Variable neg_half : F.

Local Open Scope Z_scope.

(** X10.  In a block that [_make_block] returns for [num_res >= 1], every
    layer takes the number of channels that the layer before it gives,
    the first one taking [in_channels]; the block gives [out_channels]
    channels, or half of them when it ends in an [UpSample] that was
    built with [in_channels < out_channels]. *)
Theorem make_block_channels_chain
  (in_channels out_channels n_embed num_res : Z)
  (sample : option sample_class) (is_attn : bool) (blk : list (Layer F)) :
  1 <= num_res ->
  make_block float_pow neg_half in_channels out_channels n_embed num_res
    sample is_attn = Built blk ->
  chained in_channels blk /\
  channels_after in_channels blk
  = match sample with
    | Some sample_UpSample =>
        if in_channels <? out_channels then out_channels / 2 else out_channels
    | _ => out_channels
    end.
Proof.
  intros Hn H. apply make_block_built in H.
  destruct H as (body & tl & -> & _ & Ch & A & T).
  destruct (A Hn) as (A1 & _).
  rewrite chained_app, channels_after_app, A1.
  destruct sample as [cls|].
  - destruct T as (s & -> & Es). apply new_sample_built in Es.
    destruct Es as (_ & I & O). simpl. rewrite O.
    split; [split; [exact Ch|split; [exact I|exact Logic.I]]|].
    now destruct cls.
  - subst tl. simpl. split; [split; [exact Ch|exact I]|reflexivity].
Qed.

Lemma rounds_count_res num_res is_attn idxs :
  length (filter (fun k => class_eqb k ResBlock_class)
            (flat_map (round_classes num_res is_attn) idxs))
  = length idxs.
Proof.
  induction idxs as [|i idxs IH]; simpl; auto.
  rewrite filter_app, length_app, IH.
  now destruct (is_attn && negb (Z.of_nat i =? num_res - 1)).
Qed.

Lemma rounds_count_att num_res is_attn idxs :
  length (filter (fun k => class_eqb k AttLayer_class)
            (flat_map (round_classes num_res is_attn) idxs))
  = length (filter (fun i => is_attn && negb (Z.of_nat i =? num_res - 1)) idxs).
Proof.
  induction idxs as [|i idxs IH]; simpl; auto.
  rewrite filter_app, length_app, IH.
  now destruct (is_attn && negb (Z.of_nat i =? num_res - 1)).
Qed.

Lemma rounds_no_sample num_res is_attn idxs k :
  In k (flat_map (round_classes num_res is_attn) idxs) ->
  k = ResBlock_class \/ k = AttLayer_class.
Proof.
  rewrite in_flat_map. intros (i & _ & H). unfold round_classes in H.
  destruct (is_attn && negb (Z.of_nat i =? num_res - 1)); simpl in H;
    [destruct H as [<-|[<-|[]]]|destruct H as [<-|[]]]; auto.
Qed.

Lemma rounds_count_other num_res is_attn idxs cls :
  cls = DownSample_class \/ cls = UpSample_class ->
  length (filter (fun k => class_eqb k cls)
            (flat_map (round_classes num_res is_attn) idxs))
  = 0%nat.
Proof.
  intros [-> | ->]; induction idxs as [|i idxs IH]; simpl; auto;
    rewrite filter_app, length_app, IH;
    now destruct (is_attn && negb (Z.of_nat i =? num_res - 1)).
Qed.

Lemma count_not_index (m k : nat) :
  forall a,
    length (filter (fun i => negb (i =? m)%nat) (seq a k))
    = (if (a <=? m)%nat && (m <? a + k)%nat then k - 1 else k)%nat.
Proof.
  induction k as [|k IH]; intros a; cbn [seq filter].
  - now destruct ((a <=? m)%nat && (m <? a + 0)%nat).
  - rewrite <- Nat.add_succ_comm.
    destruct (Nat.eqb_spec a m) as [->|Ne]; cbn [negb length]; rewrite IH.
    + destruct (Nat.leb_spec (S m) m); [lia|]. cbn [andb].
      destruct (Nat.leb_spec m m); [|lia].
      destruct (Nat.ltb_spec m (S m + k)); [|lia]. cbn [andb]. lia.
    + destruct (Nat.leb_spec (S a) m), (Nat.leb_spec a m),
        (Nat.ltb_spec m (S a + k)); cbn [andb]; lia.
Qed.

Lemma count_attention_rounds (num_res : Z) (is_attn : bool) :
  length (filter (fun i => is_attn && negb (Z.of_nat i =? num_res - 1))
            (seq 0 (Z.to_nat num_res)))
  = (if is_attn then Z.to_nat num_res - 1 else 0)%nat.
Proof.
  destruct is_attn; cbn [andb].
  - rewrite filter_ext_in
      with (g := fun i => negb (i =? Z.to_nat num_res - 1)%nat).
    + rewrite count_not_index. cbn [Nat.leb Nat.add andb].
      destruct (Nat.ltb_spec (Z.to_nat num_res - 1) (Z.to_nat num_res));
        [reflexivity|lia].
    + intros i Hi. apply in_seq in Hi. f_equal.
      destruct (Z.eqb_spec (Z.of_nat i) (num_res - 1)),
        (Nat.eqb_spec i (Z.to_nat num_res - 1)); auto; lia.
  - induction (seq 0 (Z.to_nat num_res)); auto.
Qed.

(** X11.  A block that [_make_block] returns holds [num_res] residual
    blocks; with [is_attn] it holds [num_res - 1] attention layers, one
    after each residual block but the last, and none otherwise; and it
    holds one sampling layer of the class passed as [sample], and none
    when [sample] is [None]. *)
Theorem make_block_layer_counts
  (in_channels out_channels n_embed num_res : Z)
  (sample : option sample_class) (is_attn : bool) (blk : list (Layer F)) :
  make_block float_pow neg_half in_channels out_channels n_embed num_res
    sample is_attn = Built blk ->
  count_class ResBlock_class blk = Z.to_nat num_res /\
  count_class AttLayer_class blk
  = (if is_attn then Z.to_nat num_res - 1 else 0)%nat /\
  count_class DownSample_class blk
  = match sample with Some sample_DownSample => 1%nat | _ => 0%nat end /\
  count_class UpSample_class blk
  = match sample with Some sample_UpSample => 1%nat | _ => 0%nat end.
Proof.
  intros H. apply make_block_classes in H.
  rewrite !count_class_map, H. unfold block_classes.
  rewrite !filter_app, !length_app, rounds_count_res, rounds_count_att,
    !rounds_count_other, count_attention_rounds, length_seq by auto.
  destruct sample as [[|]|]; cbn [class_of_sample filter class_eqb length];
    repeat split; lia.
Qed.

Lemma make_block_loop_ok out_channels n_embed num_res is_attn idxs :
  0 < out_channels -> 0 <= n_embed ->
  out_channels mod default_n_groups = 0 ->
  forall (model : list (Layer F)) c,
    0 <= c -> c mod default_n_groups = 0 ->
    exists st',
      outcome_for idxs
        (make_block_body float_pow neg_half out_channels n_embed num_res
           is_attn) (model, c) = Built st'.
Proof.
  intros Ho He Mo.
  induction idxs as [|i idxs IH]; intros model c Hc Mc; cbn [outcome_for].
  - eexists. reflexivity.
  - unfold make_block_body at 1.
    destruct (@ResBlock_init_ok c out_channels n_embed default_n_groups)
      as (r & ->); try assumption; try lia; [discriminate|].
    cbn [outcome_bind].
    destruct (is_attn && negb (Z.of_nat i =? num_res - 1)).
    + destruct (@AttLayer_init_default_ok F float_pow neg_half out_channels Ho)
        as (a & ->).
      cbn [of_result outcome_bind]. apply IH; [lia|assumption].
    + cbn [outcome_bind]. apply IH; [lia|assumption].
Qed.

(** X12.  For positive sizes and [num_res >= 1], [_make_block] returns a
    block exactly when [in_channels] and [out_channels] are multiples of
    32, the default number of groups of the residual blocks; otherwise
    it raises [ValueError]. *)
Theorem make_block_constructible
  (in_channels out_channels n_embed num_res : Z)
  (sample : option sample_class) (is_attn : bool) :
  0 < in_channels -> 0 < out_channels -> 0 < n_embed -> 1 <= num_res ->
  if (in_channels mod 32 =? 0) && (out_channels mod 32 =? 0) then
    exists blk : list (Layer F),
      make_block float_pow neg_half in_channels out_channels n_embed num_res
        sample is_attn = Built blk
  else
    make_block float_pow neg_half in_channels out_channels n_embed num_res
      sample is_attn = Failed ValueError.
Proof.
  intros Hi Ho He Hn. unfold make_block.
  destruct ((in_channels mod 32 =? 0) && (out_channels mod 32 =? 0)) eqn:M.
  - apply andb_prop in M. destruct M as [M1 M2].
    apply Z.eqb_eq in M1, M2.
    destruct (@make_block_loop_ok out_channels n_embed num_res is_attn
                (seq 0 (Z.to_nat num_res)) Ho (Z.lt_le_incl _ _ He) M2
                [] in_channels (Z.lt_le_incl _ _ Hi) M1) as (st & ->).
    cbn [outcome_bind]. destruct sample as [[|]|]; cbn [new_sample].
    + unfold DownSample_init, Conv2d. rewrite new_Conv_ok by lia.
      cbn [outcome_bind]. eexists. reflexivity.
    + unfold UpSample_init, ConvTranspose2d.
      assert (Hh : 0 <= out_channels / 2) by (apply Z.div_pos; lia).
      rewrite new_Conv_ok
        by (destruct (in_channels <? out_channels); lia).
      cbn [outcome_bind]. eexists. reflexivity.
    + eexists. reflexivity.
  - destruct (Z.to_nat num_res) as [|n] eqn:En; [lia|].
    cbn [seq outcome_for]. unfold make_block_body at 1.
    rewrite ResBlock_init_indivisible; auto; try lia. discriminate.
Qed.

End MakeBlockTheorems.

(** ** The forward pass of a UNet block *)

Section ForwardFacts.

Variables Mod X E : Type.
Variable is_DownSample : Mod -> bool.
Variable call : Mod -> X -> E -> result X.

(** Layers that are no [DownSample] are applied one after the other. *)
Lemma UnetBlock_forward_prefix (pre rest : list Mod) (t_emb : E) :
  Forall (fun l => is_DownSample l = false) pre ->
  forall x,
    UnetBlock_forward is_DownSample call (pre ++ rest) x t_emb
    = result_bind (apply_layers call pre x t_emb) (fun y =>
      UnetBlock_forward is_DownSample call rest y t_emb).
Proof.
  induction 1 as [|l pre Hl _ IH]; intros x; simpl; [reflexivity|].
  rewrite Hl. destruct (call l x t_emb) as [x'|e]; simpl; auto.
Qed.

(** X13.  [UnetBlock.forward] stops at the first [DownSample] of the
    block: it applies the layers before it in order, returns the output
    of the [DownSample] together with its input, and never applies the
    layers behind it. *)
Theorem forward_stops_at_first_downsample (pre post : list Mod) (d : Mod)
  (x : X) (t_emb : E) :
  Forall (fun l => is_DownSample l = false) pre ->
  is_DownSample d = true ->
  UnetBlock_forward is_DownSample call (pre ++ d :: post) x t_emb
  = result_bind (apply_layers call pre x t_emb) (fun y =>
    result_bind (call d y t_emb) (fun x1 => Ok (x1, Some y))).
Proof.
  intros Hpre Hd. rewrite UnetBlock_forward_prefix by assumption.
  destruct (apply_layers call pre x t_emb) as [y|e]; simpl; auto.
  now rewrite Hd.
Qed.

(** X14.  On a block without a [DownSample], [UnetBlock.forward] applies
    all the layers in order and returns [None] as its second value; an
    exception of a layer ends the pass. *)
Theorem forward_without_downsample (block : list Mod) (x : X) (t_emb : E) :
  Forall (fun l => is_DownSample l = false) block ->
  UnetBlock_forward is_DownSample call block x t_emb
  = result_bind (apply_layers call block x t_emb) (fun y => Ok (y, None)).
Proof.
  intros H. rewrite <- (app_nil_r block) at 1.
  now rewrite UnetBlock_forward_prefix.
Qed.

End ForwardFacts.

(** Modules that are numbers: [None] halves its input as a [DownSample],
    [Some k] adds [k] and fails on a negative input. *)
Lemma forward_stops_at_first_downsample_witness :
  UnetBlock_forward
    (fun m : option Z => match m with None => true | Some _ => false end)
    (fun m x (_ : unit) =>
       match m with
       | None => Ok (x / 2)%Z
       | Some k => if (x <? 0)%Z then Raise RuntimeError else Ok (x + k)%Z
       end)
    ([Some 1; Some 2] ++ None :: [Some 5; None])%Z 7%Z tt
  = Ok (5%Z, Some 10%Z).
Proof.
  apply (@forward_stops_at_first_downsample (option Z) Z unit
           (fun m => match m with None => true | Some _ => false end)
           (fun m x _ =>
              match m with
              | None => Ok (x / 2)%Z
              | Some k => if (x <? 0)%Z then Raise RuntimeError else Ok (x + k)%Z
              end)
           [Some 1; Some 2]%Z [Some 5; None]%Z None 7%Z tt).
  - repeat constructor.
  - reflexivity.
Defined.

Lemma forward_without_downsample_witness :
  UnetBlock_forward
    (fun m : option Z => match m with None => true | Some _ => false end)
    (fun m x (_ : unit) =>
       match m with
       | None => Ok (x / 2)%Z
       | Some k => if (x <? 0)%Z then Raise RuntimeError else Ok (x + k)%Z
       end)
    [Some 1; Some (-9); Some 2]%Z 7%Z tt
  = Raise RuntimeError.
Proof.
  apply (@forward_without_downsample (option Z) Z unit
           (fun m => match m with None => true | Some _ => false end)
           (fun m x _ =>
              match m with
              | None => Ok (x / 2)%Z
              | Some k => if (x <? 0)%Z then Raise RuntimeError else Ok (x + k)%Z
              end)
           [Some 1; Some (-9); Some 2]%Z 7%Z tt).
  repeat constructor.
Defined.

Section BuiltBlockForward.

Variable F : Type.
Variable float_pow : Z -> F -> F.
Variable neg_half : F.
Variables X E : Type.
Variable call : Layer F -> X -> E -> result X.

Local Open Scope Z_scope.

Lemma rounds_not_downsample num_res is_attn idxs (body : list (Layer F)) :
  map (@class_of_layer F) body = flat_map (round_classes num_res is_attn) idxs ->
  Forall (fun l => isinstance_DownSample l = false) body.
Proof.
  intros C. apply Forall_forall. intros l Hl.
  apply (in_map (@class_of_layer F)) in Hl. rewrite C in Hl.
  apply rounds_no_sample in Hl.
  destruct l; simpl in *; auto; destruct Hl; discriminate.
Qed.

(** X15.  On a block built by [_make_block], [UnetBlock.forward] applies
    every layer.  When [sample] is [DownSample], the block ends in that
    layer and the second value returned is the output of the residual
    and attention layers before it, on which the [DownSample] is
    applied; in the other cases the second value is [None]. *)
Theorem built_block_forward
  (in_channels out_channels n_embed num_res : Z)
  (sample : option sample_class) (is_attn : bool) (blk : list (Layer F))
  (x : X) (t_emb : E) :
  make_block float_pow neg_half in_channels out_channels n_embed num_res
    sample is_attn = Built blk ->
  match sample with
  | Some sample_DownSample =>
      exists body d,
        blk = body ++ [LDown F d] /\
        count_class DownSample_class body = 0%nat /\
        UnetBlock_forward (@isinstance_DownSample F) call blk x t_emb
        = result_bind (apply_layers call body x t_emb) (fun y =>
          result_bind (call (LDown F d) y t_emb) (fun x1 => Ok (x1, Some y)))
  | _ =>
      UnetBlock_forward (@isinstance_DownSample F) call blk x t_emb
      = result_bind (apply_layers call blk x t_emb) (fun y => Ok (y, None))
  end.
Proof.
  intros H. apply make_block_built in H.
  destruct H as (body & tl & -> & C & _ & _ & T).
  pose proof (rounds_not_downsample _ _ _ _ C) as Hb.
  destruct sample as [[|]|].
  - destruct T as (s & -> & Es). cbn [new_sample] in Es.
    apply outcome_bind_built in Es. destruct Es as (d & _ & Es).
    injection Es as <-. exists body, d. split; [reflexivity|]. split.
    + rewrite count_class_map, C. now apply rounds_count_other; left.
    + rewrite UnetBlock_forward_prefix by assumption.
      destruct (apply_layers call body x t_emb); reflexivity.
  - destruct T as (s & -> & Es). cbn [new_sample] in Es.
    apply outcome_bind_built in Es. destruct Es as (u & _ & Es).
    injection Es as <-.
    rewrite UnetBlock_forward_prefix by assumption.
    assert (A : forall y, UnetBlock_forward (@isinstance_DownSample F) call
                  [LUp F u] y t_emb
                = result_bind (apply_layers call [LUp F u] y t_emb)
                    (fun y => Ok (y, None))).
    { intros y. simpl. destruct (call (LUp F u) y t_emb); reflexivity. }
    clear Hb C. revert x. induction body as [|l body IH]; intros x.
    + apply A.
    + simpl. destruct (call l x t_emb); simpl; auto.
  - subst tl. rewrite app_nil_r.
    rewrite <- (app_nil_r body) at 1.
    now rewrite UnetBlock_forward_prefix.
Qed.

End BuiltBlockForward.

(** The theorems on blocks over the reals; the layers of the forward
    pass below check and change the number of channels only. *)
Lemma make_block_channels_chain_witness :
  exists blk,
    make_block real_pow (- / 2)%R 32 64 128 2 (Some sample_UpSample) true
    = Built blk /\
    chained 32 blk /\ channels_after 32 blk = 32%Z.
Proof.
  eexists. split; [reflexivity|].
  apply (@make_block_channels_chain R real_pow (- / 2)%R 32 64 128 2
           (Some sample_UpSample) true); [lia|reflexivity].
Defined.

Lemma make_block_layer_counts_witness :
  exists blk,
    make_block real_pow (- / 2)%R 64 64 128 3 (Some sample_DownSample) true
    = Built blk /\
    count_class ResBlock_class blk = 3 /\
    count_class AttLayer_class blk = 2 /\
    count_class DownSample_class blk = 1 /\
    count_class UpSample_class blk = 0.
Proof.
  eexists. split; [reflexivity|].
  apply (@make_block_layer_counts R real_pow (- / 2)%R 64 64 128 3
           (Some sample_DownSample) true). reflexivity.
Defined.

Lemma make_block_constructible_witness :
  make_block real_pow (- / 2)%R 48 64 128 2 None false = Failed ValueError.
Proof.
  apply (@make_block_constructible R real_pow (- / 2)%R 48 64 128 2 None
           false); lia.
Defined.

Lemma built_block_forward_witness :
  exists blk body d,
    make_block real_pow (- / 2)%R 32 64 128 2 (Some sample_DownSample) false
    = Built blk /\
    blk = body ++ [LDown R d] /\
    count_class DownSample_class body = 0 /\
    UnetBlock_forward (@isinstance_DownSample R) channel_call blk 32%Z tt
    = result_bind (apply_layers channel_call body 32%Z tt) (fun y =>
      result_bind (channel_call (LDown R d) y tt) (fun x1 => Ok (x1, Some y))).
Proof.
  eexists.
  destruct (@built_block_forward R real_pow (- / 2)%R Z unit channel_call
              32%Z 64%Z 128%Z 2%Z (Some sample_DownSample) false _ 32%Z tt
              eq_refl) as (body & d & E).
  exists body, d. split; [reflexivity|exact E].
Defined.

(** ** The attention in exact arithmetic *)

Section AttentionReals.

Local Open Scope R_scope.

Lemma sum_from (f : nat -> R) (l : list nat) (a : R) :
  fold_left (fun acc i => acc + f i) l a
  = a + fold_left (fun acc i => acc + f i) l 0.
Proof.
  revert a. induction l as [|i l IH]; intros a; simpl; [lra|].
  rewrite IH, (IH (0 + f i)). lra.
Qed.

Lemma sum_ext (f g : nat -> R) (l : list nat) (a : R) :
  (forall i, In i l -> f i = g i) ->
  fold_left (fun acc i => acc + f i) l a
  = fold_left (fun acc i => acc + g i) l a.
Proof.
  revert a. induction l as [|i l IH]; intros a H; simpl; [reflexivity|].
  rewrite (H i) by now left. apply IH. intros k Hk. apply H. now right.
Qed.

Lemma sum_scaled (f : nat -> R) (c : R) (l : list nat) :
  fold_left (fun acc i => acc + f i * c) l 0
  = fold_left (fun acc i => acc + f i) l 0 * c.
Proof.
  induction l as [|i l IH]; simpl; [lra|].
  rewrite sum_from, IH, (sum_from f l (0 + f i)). lra.
Qed.

Lemma sum_positive (f : nat -> R) (l : list nat) :
  (forall i, 0 < f i) -> l <> [] ->
  0 < fold_left (fun acc i => acc + f i) l 0.
Proof.
  intros Hf. induction l as [|i l IH]; intros Hl; [contradiction|].
  simpl. rewrite sum_from. pose proof (Hf i).
  destruct l as [|k l]; [simpl; lra|].
  assert (0 < fold_left (fun acc i => acc + f i) (k :: l) 0)
    by (apply IH; discriminate).
  lra.
Qed.

Lemma sum_swap (g : nat -> nat -> R) (l1 l2 : list nat) :
  fold_left (fun acc i => acc + fold_left (fun a j => a + g i j) l2 0) l1 0
  = fold_left (fun acc j => acc + fold_left (fun a i => a + g i j) l1 0) l2 0.
Proof.
  induction l1 as [|i l1 IH]; simpl.
  - induction l2 as [|j l2 IH2]; simpl; [reflexivity|].
    rewrite sum_from, <- IH2. lra.
  - rewrite sum_from, IH. clear IH.
    induction l2 as [|j l2 IH2]; simpl; [lra|].
    rewrite (sum_from (g i)), (sum_from _ l2 (0 + _)).
    rewrite (sum_from _ l2 (0 + fold_left _ l1 (0 + g i j))).
    rewrite (sum_from (fun i0 => g i0 j) l1 (0 + g i j)).
    lra.
Qed.

(** A column of the attention weights, over the first of the two
    sequence indices, adds up to 1. *)
Lemma softmax_dim1_column (n : nat) (p : @entries4 R) (b j h : nat) :
  (0 < n)%nat ->
  sum_range n (fun i => softmax_dim1 n p b i j h) = 1.
Proof.
  intros Hn. unfold sum_range, softmax_dim1. simpl.
  unfold Rdiv. rewrite sum_scaled. apply Rinv_r.
  apply Rgt_not_eq, Rlt_gt, sum_positive.
  - intros i. apply exp_pos.
  - destruct n; [lia|discriminate].
Qed.

(** X16.  Over the real numbers and for a sequence that is not empty,
    the softmax of [AttLayer.forward] normalises over the first sequence
    index, which is the index of the query: for every key position [j],
    the weights of all the output positions [i] add up to 1. *)
Theorem attention_weights_sum_over_queries (n dim : nat) (scale : R)
  (q k : @entries4 R) (b j h : nat) :
  (0 < n)%nat ->
  sum_range n (fun i =>
    softmax_dim1 n (fun b i j h => einsum_qk dim q k b i j h * scale) b i j h)
  = 1.
Proof. intros Hn. now apply softmax_dim1_column. Qed.

(** X17.  Over the real numbers and for a sequence that is not empty,
    the outputs of the attention, added up over the positions of the
    sequence, give the sum of the values: in each batch entry, head and
    channel, [sum_i attention[b, i, h, d] = sum_j v[b, j, h, d]],
    whatever the queries, the keys and the scale are. *)
Theorem attention_preserves_value_sum (n dim : nat) (scale : R)
  (q k v : @entries4 R) (b h d : nat) :
  (0 < n)%nat ->
  sum_range n (fun i => attention n dim scale q k v b i h d)
  = sum_range n (fun j => v b j h d).
Proof.
  intros Hn. unfold attention, einsum_sv.
  set (p := fun b i j h => s_mul (einsum_qk dim q k b i j h) scale).
  pose proof (fun j => @softmax_dim1_column n p b j h Hn) as Hcol.
  unfold sum_range in *. cbn [s_add s_mul s_zero exact_reals] in *.
  rewrite (sum_swap (fun i j => softmax_dim1 n p b i j h * v b j h d)).
  apply sum_ext. intros j _.
  rewrite sum_scaled, Hcol. lra.
Qed.

Lemma attention_weights_sum_over_queries_witness :
  sum_range 2 (fun i =>
    softmax_dim1 2
      (fun b i j h =>
         einsum_qk 1 (fun _ i _ _ => INR i) (fun _ _ _ _ => 1) b i j h * 2)
      0%nat i 1%nat 0%nat)
  = 1.
Proof.
  apply (@attention_weights_sum_over_queries 2 1 2 (fun _ i _ _ => INR i)
           (fun _ _ _ _ => 1) 0%nat 1%nat 0%nat).
  lia.
Defined.

Lemma attention_preserves_value_sum_witness :
  sum_range 2 (fun i =>
    attention 2 1 2 (fun _ i _ _ => INR i) (fun _ _ _ _ => 1)
      (fun _ j _ _ => INR j + 3) 0%nat i 0%nat 0%nat)
  = sum_range 2 (fun j => INR j + 3).
Proof.
  apply (@attention_preserves_value_sum 2 1 2 (fun _ i _ _ => INR i)
           (fun _ _ _ _ => 1) (fun _ j _ _ => INR j + 3) 0%nat 0%nat 0%nat).
  lia.
Defined.

End AttentionReals.
